(** * rdma_bmon: the sampling / rate pipeline and the frame renderer of
    [main.py], embedded in Rocq.

    Conventions of the embedding:
    - a Python [dict] with string keys is a [gmap string _];
    - a Python [int] is a [Z]; a Python [float] is idealised as an exact
      rational [Q] (rounding of binary64 is outside the model), compared
      with [==];
    - a Python [str] that is displayed is a list of code points
      ([ustr]), so that [len] counts characters and not bytes;
    - an exception is a [Raise e] in the [result] monad. *)

From Stdlib Require Import QArith Qround Qminmax Qabs ZArith Lia Lqa Ascii DecimalString.
From stdpp Require Import gmap strings list fin_maps.

Open Scope Z_scope.

(** ** Exceptions *)

Inductive exn : Type :=
  | KeyError (k : string)
  | ValueError (msg : string)
  | ZeroDivisionError
  | IndexError
  | FileNotFoundError (path : string)
  | IsADirectoryError (path : string)
  | SyntaxError
  | Exception (msg : string).

Inductive result (A : Type) : Type :=
  | Ok (a : A)
  | Raise (e : exn).
Arguments Ok {A} a.
Arguments Raise {A} e.

Definition rbind {A B} (r : result A) (f : A -> result B) : result B :=
  match r with
  | Ok a => f a
  | Raise e => Raise e
  end.

Notation "'let*' x ':=' r 'in' k" := (rbind r (fun x => k))
  (at level 10, x pattern, r at level 100, k at level 200).

Definition is_ok {A} (r : result A) : bool :=
  match r with Ok _ => true | Raise _ => false end.

(** [vals[k]] on a dictionary *)
Definition getitem {A} (vals : gmap string A) (k : string) : result A :=
  match vals !! k with
  | Some v => Ok v
  | None => Raise (KeyError k)
  end.

(** [[f(x) for x in l]] *)
Fixpoint for_each {A B} (f : A -> result B) (l : list A) : result (list B) :=
  match l with
  | [] => Ok []
  | x :: rest =>
      let* y := f x in
      let* ys := for_each f rest in
      Ok (y :: ys)
  end.

(** ** Rate Computer: [class Diff] *)

Module Diff.

Record t : Type := mk { _fields : list string; _d : gmap string Q }.

(** [__init__(self, fields...)] *)
Definition init (fields : list string) : t := mk fields ∅.

(** [{k: f(k) for k in fields}] *)
Fixpoint comprehension (f : string -> result Q) (fields : list string)
  : result (gmap string Q) :=
  match fields with
  | [] => Ok ∅
  | k :: rest =>
      let* v := f k in
      let* m := comprehension f rest in
      Ok (<[k := v]> m)
  end.

(** [vals[k] - self._d.get(k, vals[k])] *)
Definition delta (d : gmap string Q) (vals : gmap string Q) (k : string)
  : result Q :=
  let* v := getitem vals k in
  Ok (v - default v (d !! k))%Q.

(** [feed(self, vals)]: the new object state and the returned diff. *)
Definition feed (self : t) (vals : gmap string Q) : result (t * gmap string Q) :=
  let* diff := comprehension (delta (_d self) vals) (_fields self) in
  let* d' := comprehension (getitem vals) (_fields self) in
  Ok (mk (_fields self) d', diff).


End Diff.

(** ** The sampling part of [main]'s loop body *)

(** [k.endswith(suffix)] *)
Definition endswith (k suffix : string) : bool :=
  String.prefix (String.rev suffix) (String.rev k).

(** [v*4 if k.endswith('_data') else v] *)
Definition unit_scale (k : string) (v : Z) : Z :=
  if endswith k "_data" then v * 4 else v.

(** The fields given to [Diff(...)] in [main]. *)
Definition tracked : list string :=
  ["port_rcv_data"; "port_xmit_data"; "port_rcv_packets"; "port_xmit_packets"]%string.

(** One element of the periodic sequence as the loop sees it: the snapshot,
    and (for stating timing properties only) the wall-clock time at which
    the loop body runs on it.  [main] never reads [at_]. *)
Record tick : Type := mkTick { at_ : Q; raw : gmap string Z }.

(** [vals = {k: v*4 if k.endswith('_data') else v for k, v in vals.items()}]
    [vals = {k: v * (1/interval) for k, v in vals.items()}] *)
Definition scale_vals (interval : Q) (vals : gmap string Z)
  : result (gmap string Q) :=
  let vals4 := map_imap (fun k v => Some (unit_scale k v)) vals in
  if decide (vals4 = ∅) then Ok ∅
  else if Qeq_bool interval 0 then Raise ZeroDivisionError
  else Ok ((fun v => inject_Z v * (1 / interval))%Q <$> vals4).

(** Lines 117-119: scale, then [d = diff.feed(vals)]. *)
Definition sample (interval : Q) (diff : Diff.t) (tk : tick)
  : result (Diff.t * gmap string Q) :=
  let* vals := scale_vals interval (raw tk) in
  Diff.feed diff vals.



(** ** Counter Source: the periodic producer

    The clock and the standard error stream are the part of the world that
    [periodic] touches. *)

Record world : Type := mkWorld { now : Q; stderr : list string }.

(** [time.sleep(secs)]: Python refuses a negative duration.  The clock
    advances by the duration asked for. *)
Definition time_sleep (secs : Q) (w : world) : result world :=
  if Qlt_le_dec secs 0 then Raise (ValueError "sleep length must be non-negative")
  else Ok (mkWorld (now w + secs) (stderr w)).

(** [print(msg, file=sys.stderr)] *)
Definition eprint (msg : string) (w : world) : world :=
  mkWorld (now w) (stderr w ++ [msg]).

(** [time_to_sleep = seconds - (end-start)] *)
Definition time_to_sleep (seconds start end_ : Q) : Q :=
  (seconds - (end_ - start))%Q.

(** The part of one iteration of [periodic] that runs when the consumer
    asks for the next snapshot: from [end = time.time()] to the end of the
    loop body.  [start] is the time read at the top of the iteration. *)
Definition periodic_resume (seconds start : Q) (w : world) : world * result world :=
  let end_ := now w in
  let tts := time_to_sleep seconds start end_ in
  let w1 := if Qlt_le_dec tts 0 then eprint "Warning: time_to_sleep negative" w else w in
  (w1, time_sleep tts w1).

(** A finite run of the generator against a consumer that spends [busy_i]
    seconds on the i-th snapshot: the number of snapshots yielded, the world
    at the end, and the exception that ended the generator, if any. *)
Fixpoint periodic_run (seconds : Q) (busy : list Q) (w : world)
  : nat * world * option exn :=
  match busy with
  | [] => (0%nat, w, None)
  | b :: rest =>
      let start := now w in
      (* yield self._read_all(); the consumer works for [b] seconds *)
      let w_busy := mkWorld (now w + b) (stderr w) in
      match periodic_resume seconds start w_busy with
      | (w1, Raise e) => (1%nat, w1, Some e)
      | (_, Ok w2) =>
          let '(n, w3, e) := periodic_run seconds rest w2 in (S n, w3, e)
      end
  end.

(** What the specification says the producer sleeps. *)
Definition spec_sleep (period elapsed : Q) : Q := Qmax 0 (period - elapsed).

(** ** History Window: [collections.deque] with [maxlen] *)

Module deque.

Record t (A : Type) : Type := mk { maxlen : Z; items : list A }.
Arguments mk {A} maxlen items.
Arguments maxlen {A} _.
Arguments items {A} _.

(** [deque(maxlen=n)] *)
Definition new {A} (n : Z) : result (t A) :=
  if n <? 0 then Raise (ValueError "maxlen must be non-negative")
  else Ok (mk n []).

(** [q.append(x)]: add on the right, then drop on the left when the bound
    is exceeded. *)
Definition append {A} (q : t A) (x : A) : t A :=
  let l := items q ++ [x] in
  if maxlen q <? Z.of_nat (length l) then mk (maxlen q) (tail l)
  else mk (maxlen q) l.

(** [for x in xs: q.append(x)] *)
Definition extend {A} (q : t A) (xs : list A) : t A := foldl append q xs.

End deque.

(** [queue = deque(maxlen=cols//2-1)] *)
Definition history_window {A} (cols : Z) : result (deque.t A) :=
  deque.new (cols / 2 - 1).

(** ** Counter Source: discovery and reading

    The part of the file system the program looks at: the working
    directory and the inodes by absolute path (written without a trailing
    slash).  Symbolic links, [.] and [..] are outside the model. *)

Inductive inode : Type :=
  | File (content : string)
  | Directory (names : list string).

Record filesystem : Type := mkFS { cwd : string; inodes : gmap string inode }.

Definition strip_slash (p : string) : string :=
  if endswith p "/" && (1 <? Z.of_nat (String.length p))
  then String.substring 0 (String.length p - 1) p else p.

(** A relative path is resolved against the working directory. *)
Definition abspath (fs : filesystem) (p : string) : string :=
  strip_slash (if String.prefix "/" p then p else cwd fs +:+ "/" +:+ p).

(** [os.listdir(path)] *)
Definition os_listdir (fs : filesystem) (path : string) : result (list string) :=
  match inodes fs !! abspath fs path with
  | Some (Directory names) => Ok names
  | Some (File _) => Raise (Exception "NotADirectoryError")
  | None => Raise (FileNotFoundError path)
  end.

(** [os.path.isdir(p)] *)
Definition os_path_isdir (fs : filesystem) (p : string) : bool :=
  match inodes fs !! abspath fs p with
  | Some (Directory _) => true
  | _ => false
  end.

(** [os.path.join(path, f)] *)
Definition os_path_join (path f : string) : string :=
  if String.prefix "/" f then f
  else if bool_decide (path = "") || endswith path "/" then path +:+ f
  else path +:+ "/" +:+ f.

(** [open(file, 'r').read()] *)
Definition open_read (fs : filesystem) (file : string) : result string :=
  match inodes fs !! abspath fs file with
  | Some (File c) => Ok c
  | Some (Directory _) => Raise (IsADirectoryError file)
  | None => Raise (FileNotFoundError file)
  end.

(** *** The fragment of Python's [eval] that is modelled

    [eval] is the interpreter's; what is modelled is its behaviour on sums
    of decimal integer literals, optionally ended by one newline.  Any other
    content is [Beyond] the model: nothing is claimed about it. *)

Inductive outcome (A : Type) : Type :=
  | Returns (a : A)
  | Raises (e : exn)
  | Beyond.
Arguments Returns {A} a.
Arguments Raises {A} e.
Arguments Beyond {A}.

Definition digit (a : ascii) : option Z :=
  let n := Z.of_N (N_of_ascii a) in
  if (48 <=? n) && (n <=? 57) then Some (n - 48) else None.

Fixpoint digits (acc : Z) (s : string) : option Z :=
  match s with
  | EmptyString => Some acc
  | String a s' => d ← digit a; digits (10 * acc + d) s'
  end.

(** A decimal integer literal of Python: digits, no leading zero unless the
    literal is all zeros. *)
Definition decimal_literal (s : string) : option Z :=
  match s with
  | EmptyString => None
  | String a _ =>
      v ← digits 0 s;
      if Ascii.eqb a "0" && negb (v =? 0) then None else Some v
  end.

Definition newline : string := String (ascii_of_nat 10) EmptyString.

(** Drop one final newline. *)
Definition chomp (s : string) : string :=
  if endswith s newline then String.substring 0 (String.length s - 1) s else s.

(** Cut at every [+]. *)
Fixpoint split_plus (s : string) : list string :=
  match s with
  | EmptyString => [EmptyString]
  | String a s' =>
      if Ascii.eqb a "+" then EmptyString :: split_plus s'
      else match split_plus s' with
           | p :: ps => String a p :: ps
           | [] => [String a EmptyString]
           end
  end.

Definition py_eval (src : string) : outcome Z :=
  match mapM decimal_literal (split_plus (chomp src)) with
  | Some vs => Returns (foldr Z.add 0 vs)
  | None => Beyond
  end.


Module CounterReader.

(** [self._counters]: name to path, in insertion order. *)
Record t : Type := mk { _counters : list (string * string) }.

Definition has_key (f : string) (counters : list (string * string)) : bool :=
  existsb (fun kv => bool_decide (kv.1 = f)) counters.

(** The inner loop of [__init__] over [os.listdir(path)]. *)
Fixpoint scan_dir (fs : filesystem) (path : string) (names : list string)
    (counters : list (string * string)) : result (list (string * string)) :=
  match names with
  | [] => Ok counters
  | f :: rest =>
      if os_path_isdir fs f then scan_dir fs path rest counters
      else if has_key f counters then Raise (Exception "Counter-Name not unique")
      else scan_dir fs path rest (counters ++ [(f, os_path_join path f)])
  end.

(** The outer loop of [__init__] over [paths]. *)
Fixpoint scan_paths (fs : filesystem) (paths : list string)
    (counters : list (string * string)) : result (list (string * string)) :=
  match paths with
  | [] => Ok counters
  | path :: rest =>
      let* names := os_listdir fs path in
      let* counters' := scan_dir fs path names counters in
      scan_paths fs rest counters'
  end.

Definition init (fs : filesystem) (paths : list string) : result t :=
  let* counters := scan_paths fs paths [] in
  Ok (mk counters).

(** [_read(self, file)] *)
Definition _read (fs : filesystem) (file : string) : outcome Z :=
  match open_read fs file with
  | Ok content => py_eval content
  | Raise e => Raises e
  end.

(** [{k: self._read(v) for k, v in self._counters.items()}] *)
Fixpoint read_items (fs : filesystem) (items : list (string * string))
    (acc : gmap string Z) : outcome (gmap string Z) :=
  match items with
  | [] => Returns acc
  | (k, v) :: rest =>
      match _read fs v with
      | Returns n => read_items fs rest (<[k := n]> acc)
      | Raises e => Raises e
      | Beyond => Beyond
      end
  end.

Definition _read_all (self : t) (fs : filesystem) : outcome (gmap string Z) :=
  read_items fs (_counters self) ∅.

End CounterReader.

(** ** Displayed text

    A displayed [str] is a list of code points. *)

Abbreviation ustr := (list Z).

Definition ustr_of (s : string) : ustr :=
  map (fun a => Z.of_N (N_of_ascii a)) (String.list_ascii_of_string s).

(** [len(s)] *)
Definition len {A} (l : list A) : Z := Z.of_nat (length l).

(** [s * n] for a one-character [s]; a negative count gives the empty
    string. *)
Definition times (c : Z) (n : Z) : ustr := replicate (Z.to_nat n) c.

(** The position that the index [i] denotes in a sequence of length [n]: a
    negative index counts from the end, and an index outside the sequence
    is an error. *)
Definition norm_index (n i : Z) : result nat :=
  let j := if i <? 0 then i + n else i in
  if (j <? 0) || (n <=? j) then Raise IndexError else Ok (Z.to_nat j).

(** [l[i]] *)
Definition py_index {A} (l : list A) (i : Z) : result A :=
  let* n := norm_index (len l) i in
  match l !! n with
  | Some x => Ok x
  | None => Raise IndexError
  end.

(** [l[i] = x] *)
Definition py_setitem {A} (l : list A) (i : Z) (x : A) : result (list A) :=
  let* n := norm_index (len l) i in
  Ok (<[n := x]> l).

(** [box] and [block] of [main]. *)
Definition box : list Z :=
  [0x250F; 0x2513; 0x2517; 0x251B; 0x2503; 0x2501;
   0x2533; 0x253B; 0x2523; 0x254B; 0x252B].
Definition block : list Z :=
  [0x20; 0x2581; 0x2582; 0x2583; 0x2584; 0x2585; 0x2586; 0x2587; 0x2588].

Definition box0 : Z := 0x250F.
Definition box1 : Z := 0x2513.
Definition box2 : Z := 0x2517.
Definition box3 : Z := 0x251B.
Definition box4 : Z := 0x2503.
Definition box5 : Z := 0x2501.
Definition space : Z := 0x20.
Definition full_block : Z := 0x2588.
Definition light_vertical : Z := 0x2502.
Definition light_horizontal : Z := 0x2500.
Definition light_up_horizontal : Z := 0x2534.

Definition ESC : Z := 27.
Definition RED : ustr := ESC :: ustr_of "[31m".
Definition GREEN : ustr := ESC :: ustr_of "[32m".
Definition YELLOW : ustr := ESC :: ustr_of "[33m".
Definition CC : ustr := ESC :: ustr_of "[0m".

(** *** [ansi_escape] and [slen]

    The pattern is [ESC (?: [@-Z\-_] | \[ [0-?]* [ -/]* [@-~] )].  Its three
    classes after the bracket are pairwise disjoint, so the greedy stars
    never have to give a character back. *)

Definition in_range (lo hi c : Z) : bool := (lo <=? c) && (c <=? hi).
Definition is_fe (c : Z) : bool := in_range 64 90 c || in_range 92 95 c.
Definition is_param (c : Z) : bool := in_range 48 63 c.
Definition is_inter (c : Z) : bool := in_range 32 47 c.
Definition is_final (c : Z) : bool := in_range 64 126 c.

Fixpoint count_while (p : Z -> bool) (s : ustr) : nat :=
  match s with
  | c :: s' => if p c then S (count_while p s') else O
  | [] => O
  end.

(** Length of the match of [[0-?]*[ -/]*[@-~]] at the head of [s]. *)
Definition csi_len (s : ustr) : option nat :=
  let a := count_while is_param s in
  let b := count_while is_inter (drop a s) in
  match drop b (drop a s) with
  | c :: _ => if is_final c then Some (a + b + 1)%nat else None
  | [] => None
  end.

(** Length of what the pattern matches after an [ESC], if it matches. *)
Definition escape_len (s : ustr) : option nat :=
  match s with
  | c :: rest =>
      if is_fe c then Some 1%nat
      else if c =? 91 then S <$> csi_len rest
      else None
  | [] => None
  end.

(** [ansi_escape.sub('', s)], scanning left to right; [skip] characters of
    a match are still to be dropped. *)
Fixpoint sub_from (skip : nat) (s : ustr) : ustr :=
  match s with
  | [] => []
  | c :: s' =>
      match skip with
      | S k => sub_from k s'
      | O =>
          if c =? ESC then
            match escape_len s' with
            | Some k => sub_from k s'
            | None => c :: sub_from O s'
            end
          else c :: sub_from O s'
      end
  end.

Definition ansi_sub (s : ustr) : ustr := sub_from O s.

(** [slen(s)] *)
Definition slen (s : ustr) : Z := len (ansi_sub s).

(** *** Format specifications *)

(** [f'{s:<w}'] *)
Definition ljust (w : Z) (s : ustr) : ustr := s ++ times space (w - len s).
(** [f'{s:>w}'] *)
Definition rjust (w : Z) (s : ustr) : ustr := times space (w - len s) ++ s.

(** Rounding to the nearest integer, ties to even. *)
Definition round_half_even (q : Q) : Z :=
  let f := Qfloor q in
  let r := (q - inject_Z f)%Q in
  match (r ?= 1 # 2)%Q with
  | Lt => f
  | Gt => f + 1
  | Eq => if Z.even f then f else f + 1
  end.

Definition decimal (n : Z) : ustr :=
  ustr_of (DecimalString.NilZero.string_of_uint (N.to_uint (Z.to_N n))).

(** [f'{num:.{precision}f}'] *)
Definition fixed (precision : nat) (num : Q) : ustr :=
  let p := 10 ^ Z.of_nat precision in
  let n := round_half_even (Qabs num * inject_Z p)%Q in
  let frac := decimal (n mod p) in
  (if Qlt_le_dec num 0 then ustr_of "-" else [])
    ++ decimal (n / p)
    ++ match precision with
       | O => []
       | _ => ustr_of "." ++ replicate (precision - length frac) 48 ++ frac
       end.

(** The loop of [sizeof_fmt] and of [unit_fmt]. *)
Fixpoint fmt_loop (base : Q) (precision : nat) (tail_ : ustr)
    (units : list string) (num : Q) : ustr + Q :=
  match units with
  | [] => inr num
  | u :: rest =>
      if Qlt_le_dec (Qabs num) base
      then inl (fixed precision num ++ ustr_of u ++ tail_)
      else fmt_loop base precision tail_ rest (num / base)%Q
  end.

(** [sizeof_fmt(num)] with the defaults [suffix='B'], [precision=2] *)
Definition sizeof_fmt (num : Q) : ustr :=
  match fmt_loop 1024 2 (ustr_of "B")
          [""; "Ki"; "Mi"; "Gi"; "Ti"; "Pi"; "Ei"; "Zi"]%string num with
  | inl s => s
  | inr num' => fixed 1 num' ++ ustr_of "YiB"
  end.

(** [unit_fmt(num)] with the default [precision=2] *)
Definition unit_fmt (num : Q) : ustr :=
  match fmt_loop 1000 2 [] [""; "K"; "M"; "B"; "T"]%string num with
  | inl s => s
  | inr num' => fixed 1 num' ++ ustr_of "?"
  end.

(** ** Bar Scaler *)

(** [max(y)]: the first largest element; an empty argument is an error. *)
Fixpoint max_from (m : Q) (l : list Q) : Q :=
  match l with
  | [] => m
  | x :: rest => max_from (if Qlt_le_dec m x then x else m) rest
  end.

Definition py_max (l : list Q) : result Q :=
  match l with
  | [] => Raise (ValueError "max() arg is an empty sequence")
  | x :: rest => Ok (max_from x rest)
  end.

(** [try: y_factor = height / max(y)]
    [except ZeroDivisionError: y_factor = 0] *)
Definition y_factor (height : Z) (y : list Q) : result Q :=
  let* m := py_max y in
  Ok (if Qeq_bool m 0 then 0 else inject_Z height / m)%Q.

(** [y = [x*y_factor for x in reversed(y)]] *)
Definition scale (height : Z) (y : list Q) : result (list Q) :=
  let* f := y_factor height y in
  Ok (map (fun x => x * f)%Q (reverse y)).

(** [math.floor(val)] *)
Definition whole_height (val : Q) : Z := Qfloor val.
(** [val % 1] *)
Definition remainder_height (val : Q) : Q := (val - inject_Z (Qfloor val))%Q.
(** [math.floor(remainder_height * 8)] *)
Definition part_height (val : Q) : Z := Qfloor (remainder_height val * 8)%Q.

(** ** Frame Composer *)

Abbreviation grid := (list (list ustr)).

(** [bars = [[' ']*(cols-2) for _ in range(height)]] *)
Definition blank_bars (cols height : Z) : grid :=
  replicate (Z.to_nat height) (replicate (Z.to_nat (cols - 2)) [space]).

(** [bars[r][i]] *)
Definition get_cell (bars : grid) (r i : Z) : result ustr :=
  let* row := py_index bars r in
  py_index row i.

(** [bars[r][i] = v] *)
Definition set_cell (bars : grid) (r i : Z) (v : ustr) : result grid :=
  let* row := py_index bars r in
  let* row' := py_setitem row i v in
  py_setitem bars r row'.

(** The glyph of row [j] of a column: [block[-1]] below the whole height,
    the partial glyph at it, [block[0]] above. *)
Definition bar_cell (whole : Z) (part_char : Z) (j : Z) : ustr :=
  if j <? whole then [full_block]
  else if j =? whole then [part_char]
  else [space].

(** [for j in range(height): bars[height-j-1][i] = ...] *)
Fixpoint fill_column (bars : grid) (height i whole part_char : Z) (js : list Z)
  : result grid :=
  match js with
  | [] => Ok bars
  | j :: rest =>
      let* bars' := set_cell bars (height - j - 1) i (bar_cell whole part_char j) in
      fill_column bars' height i whole part_char rest
  end.

(** The body of [for i, val in enumerate(y)] for the column [i]. *)
Definition draw_column (bars : grid) (height i : Z) (val : Q) : result grid :=
  let whole := whole_height val in
  let* part_char := py_index block (part_height val) in
  fill_column bars height i whole part_char (seqZ 0 height).

(** [for i, val in enumerate(y): i = offset - i; ...], from index [n] on. *)
Fixpoint draw_series (bars : grid) (height offset n : Z) (y : list Q)
  : result grid :=
  match y with
  | [] => Ok bars
  | val :: rest =>
      let* bars' := draw_column bars height (offset - n) val in
      draw_series bars' height offset (n + 1) rest
  end.

(** The body of the colouring loop, lines 192-196. *)
Definition style_row (bars : grid) (offset j : Z) : result grid :=
  let* c := get_cell bars j 0 in
  let* bars := set_cell bars j 0 (RED ++ c) in
  let* c := get_cell bars j (offset - 1) in
  let* bars := set_cell bars j (offset - 1) (c ++ CC) in
  let* bars := set_cell bars j offset [space] in
  let* c := get_cell bars j (offset + 1) in
  let* bars := set_cell bars j (offset + 1) (GREEN ++ c) in
  let* row0 := py_index bars 0 in
  let* c := get_cell bars j (len row0 - 1) in
  set_cell bars j (len row0 - 1) (c ++ CC).

Fixpoint style_rows (bars : grid) (offset : Z) (js : list Z) : result grid :=
  match js with
  | [] => Ok bars
  | j :: rest =>
      let* bars' := style_row bars offset j in
      style_rows bars' offset rest
  end.

Definition sep : ustr := [space; light_vertical; space].

(** The header of line 130. *)
Definition header_text : ustr :=
  YELLOW ++ ljust 28 (ustr_of "Interface") ++ CC ++ sep
    ++ RED ++ ljust 10 (ustr_of "RX bps") ++ [space] ++ rjust 10 (ustr_of "pps") ++ CC
    ++ sep
    ++ GREEN ++ ljust 10 (ustr_of "TX bps") ++ [space] ++ rjust 10 (ustr_of "pps") ++ CC.

(** The values of line 132. *)
Definition values_text (nic : ustr) (d : gmap string Q) : result ustr :=
  let* rx_data := getitem d "port_rcv_data" in
  let* rx_packets := getitem d "port_rcv_packets" in
  let* tx_data := getitem d "port_xmit_data" in
  let* tx_packets := getitem d "port_xmit_packets" in
  Ok (YELLOW ++ ljust 28 nic ++ CC ++ sep
        ++ RED ++ rjust 10 (sizeof_fmt rx_data) ++ [space]
        ++ rjust 10 (unit_fmt rx_packets) ++ CC
        ++ sep
        ++ GREEN ++ rjust 10 (sizeof_fmt tx_data) ++ [space]
        ++ rjust 10 (unit_fmt tx_packets) ++ CC).

(** The rule of line 135. *)
Definition rule_text : ustr :=
  times light_horizontal 29 ++ [light_up_horizontal]
    ++ times light_horizontal 23 ++ [light_up_horizontal]
    ++ times light_horizontal 23.

(** [box[4] + text + ' '*(cols-2-slen(text)) + box[4]] *)
Definition boxed (cols : Z) (text : ustr) : ustr :=
  [box4] ++ text ++ times space (cols - 2 - slen text) ++ [box4].

(** [box[4] + line + ' '*(cols-2-len(line)) + box[4]] *)
Definition boxed_raw (cols : Z) (line : ustr) : ustr :=
  [box4] ++ line ++ times space (cols - 2 - len line) ++ [box4].

(** The rendering part of the loop body, lines 124-205: the frame for the
    sample [d] and the window contents [queue] ([d] already appended). *)
Definition render (cols rows : Z) (nic : ustr) (d : gmap string Q)
    (queue : list (gmap string Q)) : result (list ustr) :=
  let top := [box0] ++ times box5 (cols - 2) ++ [box1] in
  let header := boxed cols header_text in
  let* text := values_text nic d in
  let values := boxed cols text in
  let rule := [box4] ++ rule_text
                ++ times light_horizontal (cols - 2 - len rule_text) ++ [box4] in
  let lines := [top; header; values; rule] in
  let* y := for_each (fun x => getitem x "port_xmit_data") queue in
  let* y2 := for_each (fun x => getitem x "port_rcv_data") queue in
  let height := rows - len lines - 1 in
  let* y := scale height y in
  let* y2 := scale height y2 in
  let bars := blank_bars cols height in
  let* bars := draw_series bars height (cols - 2 - 1) 0 y in
  let* bars := draw_series bars height ((cols - 2) / 2 - 2) 0 y2 in
  let* bars := style_rows bars ((cols - 2) / 2 - 1) (seqZ 0 height) in
  let lines := lines ++ map (fun b => boxed_raw cols (concat b)) bars in
  let padding := replicate (Z.to_nat (rows - 2 - len lines))
                   ([box4] ++ times space (cols - 2) ++ [box4]) in
  Ok (lines ++ padding ++ [[box2] ++ times box5 (cols - 2) ++ [box3]]).

(** ** The loop of [main] *)

Record loop_state : Type :=
  mkLoop { diff : Diff.t; queue : deque.t (gmap string Q) }.

(** [diff = Diff(...)]; [queue = deque(maxlen=cols//2-1)] *)
Definition loop_init (cols : Z) : result loop_state :=
  let* q := history_window cols in
  Ok (mkLoop (Diff.init tracked) q).

(** One iteration of [for vals in counters.periodic(...)]: the new state and
    the frame written to the terminal.  In the source [queue.append(d)]
    stands between the first four lines and the bars; it cannot fail and
    these lines do not read the window, so it is done before [render]. *)
Definition loop_body (cols rows : Z) (nic : ustr) (interval : Q)
    (st : loop_state) (tk : tick) : result (loop_state * list ustr) :=
  let* (diff', d) := sample interval (diff st) tk in
  let queue' := deque.append (queue st) d in
  let* lines := render cols rows nic d (deque.items queue') in
  Ok (mkLoop diff' queue', lines).

Fixpoint loop (cols rows : Z) (nic : ustr) (interval : Q)
    (st : loop_state) (ticks : list tick) : result (loop_state * list (list ustr)) :=
  match ticks with
  | [] => Ok (st, [])
  | tk :: rest =>
      let* (st', frame) := loop_body cols rows nic interval st tk in
      let* (st'', frames) := loop cols rows nic interval st' rest in
      Ok (st'', frame :: frames)
  end.

(** ** Predicates and sample data used in the statements *)




(** A sample, and a raw snapshot, holding the four tracked fields. *)
Definition sample4 (rd xd rp xp : Q) : gmap string Q :=
  <["port_rcv_data" := rd]> (<["port_xmit_data" := xd]>
    (<["port_rcv_packets" := rp]> (<["port_xmit_packets" := xp]> ∅))).

Definition snapshot4 (rd xd rp xp : Z) : gmap string Z :=
  <["port_rcv_data" := rd]> (<["port_xmit_data" := xd]>
    (<["port_rcv_packets" := rp]> (<["port_xmit_packets" := xp]> ∅))).

(** A file system with one counter root holding a plain file and a
    subdirectory, looked at from another working directory. *)
Definition sysfs (cwd : string) : filesystem :=
  mkFS cwd
    (<["/sys/hw" := Directory ["rx_bytes"; "sub"]%string]>
     (<["/sys/hw/rx_bytes" := File ("17" +:+ newline)]>
      (<["/sys/hw/sub" := Directory []]>
       (<["/home/user" := Directory []]> ∅)))).


(** A file system with the single counter file [/r/c]. *)
Definition one_counter (content : string) : filesystem :=
  mkFS "/" (<["/r" := Directory ["c"%string]]> (<["/r/c" := File content]> ∅)).

(** The shape of [bars] for a plotting height [h] (no row when [h] is
    negative) and [w] cells per row. *)
Definition shaped (h w : Z) (bars : grid) : Prop :=
  len bars = Z.max 0 h /\ Forall (fun row => len row = w) bars.

(** A dictionary that holds every tracked field. *)
Definition has_tracked {A} (m : gmap string A) : Prop :=
  forall k, k ∈ tracked -> is_Some (m !! k).

(** Text without an escape character. *)
Definition plain (s : ustr) : Prop := Forall (fun c => c <> ESC) s.




(** What the loop maintains: the tracked fields in the Rate Computer, and
    a window within its capacity whose samples hold every tracked field. *)
Definition loop_ok (cols : Z) (st : loop_state) : Prop :=
  Diff._fields (diff st) = tracked
  /\ deque.maxlen (queue st) = cols / 2 - 1
  /\ len (deque.items (queue st)) <= cols / 2 - 1
  /\ Forall has_tracked (deque.items (queue st)).

(** ** Definitions used in the statements of the further properties *)






(** * Properties *)

(** ** Rate Computer *)

Section Comprehension.
Context (f : string -> result Q).

Lemma comprehension_lookup fields m k :
  Diff.comprehension f fields = Ok m ->
  m !! k = if decide (k ∈ fields) then
             match f k with Ok v => Some v | Raise _ => None end
           else None.
Proof.
  revert m. induction fields as [|k0 rest IH]; intros m H; simpl in H.
  - injection H as <-. rewrite lookup_empty. case_decide; [set_solver|done].
  - destruct (f k0) as [v|?] eqn:Hf; simpl in H; [|done].
    destruct (Diff.comprehension f rest) as [m0|?] eqn:Hc; simpl in H; [|done].
    injection H as <-. specialize (IH m0 eq_refl).
    destruct (decide (k = k0)) as [->|Hne].
    + rewrite lookup_insert_eq, Hf.
      destruct (decide (k0 ∈ k0 :: rest)); [done|set_solver].
    + rewrite lookup_insert_ne by done. rewrite IH.
      destruct (decide (k ∈ rest)) as [Hin|Hout],
        (decide (k ∈ k0 :: rest)) as [Hin'|Hout']; try done.
      * exfalso. apply Hout'. by right.
      * apply elem_of_cons in Hin' as [?|?]; done.
Qed.

Lemma comprehension_ok fields :
  (forall k, k ∈ fields -> is_ok (f k) = true) ->
  exists m, Diff.comprehension f fields = Ok m.
Proof.
  induction fields as [|k0 rest IH]; intros H; simpl; [eauto|].
  destruct (f k0) as [v|e] eqn:Hf.
  - destruct IH as [m ->]; [intros; apply H; set_solver|]. simpl. eauto.
  - specialize (H k0 ltac:(set_solver)). rewrite Hf in H. done.
Qed.

Lemma comprehension_ok_inv fields m k :
  Diff.comprehension f fields = Ok m -> k ∈ fields -> is_ok (f k) = true.
Proof.
  revert m. induction fields as [|k0 rest IH]; intros m; simpl; [set_solver|].
  destruct (f k0) as [v|e] eqn:Hf; simpl; [|done].
  destruct (Diff.comprehension f rest) as [m0|?] eqn:Hc; simpl; [|done].
  intros _ [->|Hin]%elem_of_cons; [by rewrite Hf|eauto].
Qed.
End Comprehension.


Lemma getitem_ok {A} (vals : gmap string A) k v :
  vals !! k = Some v -> getitem vals k = Ok v.
Proof. unfold getitem. by intros ->. Qed.

Lemma getitem_inv {A} (vals : gmap string A) k v :
  getitem vals k = Ok v -> vals !! k = Some v.
Proof. unfold getitem. destruct (vals !! k); [by intros [= ->]|done]. Qed.

Lemma feed_inv self vals self' diff :
  Diff.feed self vals = Ok (self', diff) ->
  Diff.comprehension (Diff.delta (Diff._d self) vals) (Diff._fields self) = Ok diff
  /\ Diff.comprehension (getitem vals) (Diff._fields self) = Ok (Diff._d self')
  /\ Diff._fields self' = Diff._fields self.
Proof.
  unfold Diff.feed.
  destruct (Diff.comprehension (Diff.delta _ _) _) as [m|?]; simpl; [|done].
  destruct (Diff.comprehension (getitem _) _) as [m'|?]; simpl; [|done].
  by intros [= <- <-].
Qed.

(** The diff of a tracked field is the new value minus the retained one, or
    minus itself when nothing is retained. *)
Lemma feed_lookup self vals self' diff k :
  Diff.feed self vals = Ok (self', diff) ->
  k ∈ Diff._fields self ->
  exists v, vals !! k = Some v
    /\ diff !! k = Some (v - default v (Diff._d self !! k))%Q
    /\ Diff._d self' !! k = Some v.
Proof.
  intros (Hdiff & Hd & _)%feed_inv Hk.
  pose proof (comprehension_ok_inv _ _ _ k Hd Hk) as Hok.
  destruct (getitem vals k) as [v|?] eqn:Hg; [|done].
  exists v. split; [by apply getitem_inv|].
  rewrite (comprehension_lookup _ _ _ k Hdiff), (comprehension_lookup _ _ _ k Hd).
  rewrite !decide_True by done. unfold Diff.delta. by rewrite Hg.
Qed.

Lemma feed_total self vals :
  (forall k, k ∈ Diff._fields self -> is_Some (vals !! k)) ->
  exists self' diff, Diff.feed self vals = Ok (self', diff).
Proof.
  intros H. unfold Diff.feed.
  destruct (comprehension_ok (Diff.delta (Diff._d self) vals) (Diff._fields self)) as [m ->].
  { intros k [v Hv]%H. unfold Diff.delta. by rewrite (getitem_ok _ _ _ Hv). }
  destruct (comprehension_ok (getitem vals) (Diff._fields self)) as [m' ->].
  { intros k [v Hv]%H. by rewrite (getitem_ok _ _ _ Hv). }
  simpl. eauto.
Qed.

(** C7.  The first call to [feed], on any snapshot that holds every tracked
    field, succeeds and yields a rate equal to 0 for every tracked field:
    nothing is retained yet, so each value is subtracted from itself. *)
Theorem first_feed_is_zero (fields : list string) (vals : gmap string Q)
    (Hall : forall k, k ∈ fields -> is_Some (vals !! k)) :
  exists self' diff,
    Diff.feed (Diff.init fields) vals = Ok (self', diff)
    /\ forall k, k ∈ fields -> exists r, diff !! k = Some r /\ (r == 0)%Q.
Proof.
  destruct (feed_total (Diff.init fields) vals Hall) as (self' & diff & Hfeed).
  exists self', diff. split; [done|]. intros k Hk.
  destruct (feed_lookup _ _ _ _ k Hfeed Hk) as (v & _ & Hdiff & _).
  simpl in Hdiff. rewrite lookup_empty in Hdiff. simpl in Hdiff.
  eexists. split; [done|]. ring.
Qed.

Lemma first_feed_is_zero_witness :
  exists self' diff,
    Diff.feed (Diff.init tracked) (sample4 4000 2000 40 20) = Ok (self', diff)
    /\ forall k, k ∈ tracked -> exists r, diff !! k = Some r /\ (r == 0)%Q.
Proof.
  apply (first_feed_is_zero tracked (sample4 4000 2000 40 20)).
  intros k Hk. unfold tracked in Hk.
  repeat (apply elem_of_cons in Hk as [->|Hk]; [eexists; vm_compute; reflexivity|]).
  by apply elem_of_nil in Hk.
Defined.




Lemma scale_vals_inv interval vals m k :
  scale_vals interval vals = Ok m ->
  m !! k = (fun v => inject_Z (unit_scale k v) * (1 / interval))%Q <$> vals !! k.
Proof.
  unfold scale_vals. case_decide as Hempty.
  - intros [= <-]. rewrite lookup_empty.
    assert (map_imap (fun k v => Some (unit_scale k v)) vals !! k = None) as Hk
      by (rewrite Hempty; apply lookup_empty).
    rewrite map_lookup_imap in Hk. by destruct (vals !! k).
  - destruct (Qeq_bool interval 0); [done|]. intros [= <-].
    rewrite lookup_fmap, map_lookup_imap. by destruct (vals !! k).
Qed.





(** ** History Window *)

Section Deque.
Context {A : Type}.
Implicit Types (q : deque.t A) (x : A) (xs : list A).

Lemma append_maxlen q x : deque.maxlen (deque.append q x) = deque.maxlen q.
Proof. unfold deque.append. by case_match. Qed.

Lemma append_items q x :
  len (deque.items q) <= deque.maxlen q ->
  deque.items (deque.append q x)
  = drop (length (deque.items q ++ [x]) - Z.to_nat (deque.maxlen q))
      (deque.items q ++ [x])
  /\ len (deque.items (deque.append q x)) <= deque.maxlen q.
Proof.
  unfold deque.append, len. intros Hle.
  rewrite length_app in *. simpl length in *.
  destruct (Z.ltb_spec (deque.maxlen q) (Z.of_nat (length (deque.items q) + 1))); simpl.
  - replace (length (deque.items q) + 1 - Z.to_nat (deque.maxlen q))%nat with 1%nat by lia.
    split; [by destruct (deque.items q ++ [x])|].
    destruct (deque.items q); simpl in *; [lia|]. rewrite length_app. simpl. lia.
  - replace (length (deque.items q) + 1 - Z.to_nat (deque.maxlen q))%nat with 0%nat by lia.
    split; [done|]. rewrite length_app. simpl. lia.
Qed.

Lemma extend_items xs : forall q,
  len (deque.items q) <= deque.maxlen q ->
  deque.items (deque.extend q xs)
  = drop (length (deque.items q ++ xs) - Z.to_nat (deque.maxlen q))
      (deque.items q ++ xs)
  /\ len (deque.items (deque.extend q xs)) <= deque.maxlen q.
Proof.
  induction xs as [|x xs IH]; intros q Hle; simpl.
  - rewrite app_nil_r. split; [|done].
    unfold len in Hle. replace (_ - _)%nat with 0%nat by lia. done.
  - destruct (append_items q x Hle) as [Hit Hle'].
    rewrite <- (append_maxlen q x) in Hle'.
    destruct (IH _ Hle') as [IH1 IH2]. unfold deque.extend in *.
    rewrite append_maxlen in *. split; [|done].
    rewrite IH1, Hit. clear IH IH1 IH2 Hit.
    set (l := deque.items q ++ [x]).
    replace (deque.items q ++ x :: xs) with (l ++ xs) by (unfold l; by rewrite <- app_assoc).
    set (m := Z.to_nat (deque.maxlen q)).
    assert (Hl : (length l <= m + 1)%nat).
    { unfold l, m, len in *. rewrite length_app. simpl. lia. }
    destruct (decide (length l <= m)%nat) as [Hs|Hb].
    + replace (length l - m)%nat with 0%nat by lia. done.
    + replace (length l - m)%nat with 1%nat by lia.
      assert (drop 1 l ++ xs = drop 1 (l ++ xs)) as ->.
      { destruct l; simpl in *; [lia|done]. }
      rewrite drop_drop. f_equal.
      rewrite length_drop, !length_app. lia.
Qed.
End Deque.

(** C6.  The window is created with capacity [cols / 2 - 1] (floor
    division); after [capacity + k] pushes it holds exactly the last
    [capacity] samples in arrival order, and after any number of pushes it
    never holds more than [capacity]. *)
Theorem window_keeps_most_recent {A} (cols : Z) (q : deque.t A)
    (xs : list A) (k : nat)
    (Hq : history_window cols = Ok q)
    (Hlen : len xs = (cols / 2 - 1) + Z.of_nat k) :
  deque.maxlen q = cols / 2 - 1
  /\ deque.items (deque.extend q xs) = drop k xs
  /\ len (deque.items (deque.extend q xs)) = cols / 2 - 1
  /\ forall ys, len (deque.items (deque.extend q ys)) <= cols / 2 - 1.
Proof.
  unfold history_window, deque.new in Hq.
  destruct (Z.ltb_spec (cols / 2 - 1) 0); [done|]. injection Hq as <-.
  simpl. split; [done|].
  assert (Hinv : len (deque.items (deque.mk (A:=A) (cols / 2 - 1) [])) <= cols / 2 - 1)
    by (simpl; unfold len; simpl; lia).
  destruct (extend_items xs _ Hinv) as [Hit _]. simpl in Hit.
  unfold len in Hlen.
  replace (length xs - Z.to_nat (cols / 2 - 1))%nat with k in Hit by lia.
  rewrite Hit. split; [done|]. split.
  - unfold len. rewrite length_drop. lia.
  - intros ys. by destruct (extend_items ys _ Hinv) as [_ ?].
Qed.

Lemma window_keeps_most_recent_witness :
  exists q : deque.t Z,
    history_window 8 = Ok q
    /\ deque.items (deque.extend q [1; 2; 3; 4; 5]) = [3; 4; 5].
Proof.
  eexists. split; [reflexivity|].
  apply (window_keeps_most_recent 8 _ [1; 2; 3; 4; 5] 2); reflexivity.
Defined.

(** ** The periodic producer *)

(** C2, on the failing input.  With a period of one second and a consumer
    that spends two seconds on the first snapshot, the producer prints its
    warning and then [time.sleep] raises on the negative duration: the
    generator ends after one snapshot instead of proceeding to the next
    tick. *)
Theorem periodic_late_tick_raises :
  periodic_run 1 [2; 0]%Q (mkWorld 0 [])
  = (1%nat, mkWorld 2 ["Warning: time_to_sleep negative"%string],
     Some (ValueError "sleep length must be non-negative"))
  /\ (time_to_sleep 1 0 2 == -1)%Q
  /\ (spec_sleep 1 2 == 0)%Q.
Proof. repeat split; vm_compute; reflexivity. Qed.

(** Late, whatever the amounts: the warning, then the exception. *)
Lemma periodic_resume_late (seconds start : Q) (w : world) :
  (seconds < now w - start)%Q ->
  periodic_resume seconds start w
  = (eprint "Warning: time_to_sleep negative" w,
     Raise (ValueError "sleep length must be non-negative")).
Proof.
  intros Hlate. unfold periodic_resume, time_sleep, time_to_sleep.
  destruct (Qlt_le_dec _ 0) as [_|Hge]; [done|].
  lra.
Qed.

(** On time, the duration slept is the one the specification asks for. *)
Lemma time_to_sleep_on_time (seconds start end_ : Q) :
  (end_ - start <= seconds)%Q ->
  (time_to_sleep seconds start end_ == spec_sleep seconds (end_ - start))%Q.
Proof.
  intros Hok. unfold time_to_sleep, spec_sleep.
  rewrite Q.max_r; [reflexivity|lra].
Qed.

Lemma periodic_resume_on_time (seconds start : Q) (w : world) :
  (now w - start <= seconds)%Q ->
  periodic_resume seconds start w
  = (w, Ok (mkWorld (now w + time_to_sleep seconds start (now w)) (stderr w))).
Proof.
  intros Hok. unfold periodic_resume, time_sleep.
  destruct (Qlt_le_dec _ 0) as [Hlt|_]; [|done].
  unfold time_to_sleep in Hlt. lra.
Qed.

(** ** Counter discovery and reading *)

(** C4, on the failing input.  [os.path.isdir] is given the bare entry
    name, so it looks in the working directory: the subdirectory [sub] of the
    root becomes a counter unless the program happens to run inside the
    root. *)
Theorem subdirectory_becomes_counter :
  inodes (sysfs "/home/user") !! "/sys/hw/sub" = Some (Directory [])
  /\ CounterReader.init (sysfs "/home/user") ["/sys/hw/"%string]
     = Ok (CounterReader.mk
             [("rx_bytes", "/sys/hw/rx_bytes"); ("sub", "/sys/hw/sub")]%string)
  /\ CounterReader.init (sysfs "/sys/hw") ["/sys/hw/"%string]
     = Ok (CounterReader.mk [("rx_bytes", "/sys/hw/rx_bytes")]%string).
Proof. repeat split; vm_compute; reflexivity. Qed.










(** ** Bar Scaler *)






Lemma remainder_range v : (0 <= remainder_height v < 1)%Q.
Proof.
  unfold remainder_height.
  pose proof (Qfloor_le v). pose proof (Qlt_floor v) as Hlt.
  rewrite inject_Z_plus in Hlt. change (inject_Z 1) with 1%Q in Hlt. lra.
Qed.

Lemma part_height_range v : 0 <= part_height v <= 7.
Proof.
  unfold part_height. destruct (remainder_range v) as [H0 H1].
  split.
  - change 0 with (Qfloor 0). apply Qfloor_resp_le. lra.
  - assert (Qfloor (remainder_height v * 8) < 8); [|lia].
    apply Z.lt_nge. intros Hge.
    assert (8 <= remainder_height v * 8)%Q; [|lra].
    eapply Qle_trans; [|apply Qfloor_le].
    change 8%Q with (inject_Z 8). by rewrite <- Zle_Qle.
Qed.

(** ** Indexing and the grid of bars *)

(** The glyphs used by name are the entries of the two tables. *)
Lemma table_entries :
  py_index box 0 = Ok box0 /\ py_index box 1 = Ok box1
  /\ py_index box 2 = Ok box2 /\ py_index box 3 = Ok box3
  /\ py_index box 4 = Ok box4 /\ py_index box 5 = Ok box5
  /\ py_index block 0 = Ok space /\ py_index block (-1) = Ok full_block
  /\ len block = 9.
Proof. repeat split; reflexivity. Qed.

Lemma rbind_ok {A B} (r : result A) (f : A -> result B) b :
  rbind r f = Ok b -> exists a, r = Ok a /\ f a = Ok b.
Proof. destruct r; simpl; [eauto|done]. Qed.

Lemma Ok_inj {A} (a b : A) : Ok a = Ok b -> a = b.
Proof. by intros [= ->]. Qed.

Ltac rinv H :=
  let a := fresh "a" in
  let Ha := fresh "H" a in
  apply rbind_ok in H as (a & Ha & H).

Section Indexing.
Context {A : Type}.
Implicit Types (l : list A) (x : A) (i : Z).

Lemma norm_index_lt n i k : norm_index n i = Ok k -> (Z.of_nat k < n).
Proof.
  unfold norm_index.
  destruct (i <? 0) eqn:Hi; case_match; try done; intros [= <-]; lia.
Qed.

Lemma norm_index_total n i : - n <= i < n -> exists k, norm_index n i = Ok k.
Proof.
  intros Hi. unfold norm_index.
  destruct (i <? 0) eqn:Hneg; case_match eqn:Hb; eauto; lia.
Qed.

Lemma norm_index_nonneg n i : 0 <= i < n -> norm_index n i = Ok (Z.to_nat i).
Proof.
  intros Hi. unfold norm_index.
  destruct (i <? 0) eqn:Hneg; [lia|]. case_match eqn:Hb; [lia|done].
Qed.

Lemma py_index_inv l i x :
  py_index l i = Ok x ->
  exists k, norm_index (len l) i = Ok k /\ l !! k = Some x.
Proof.
  unfold py_index. intros H. rinv H. exists a. split; [done|].
  destruct (l !! a); [by injection H as ->|done].
Qed.

Lemma py_index_norm l i k :
  norm_index (len l) i = Ok k -> exists x, py_index l i = Ok x /\ l !! k = Some x.
Proof.
  intros Hk. unfold py_index. rewrite Hk. simpl.
  apply norm_index_lt in Hk as Hlt. unfold len in Hlt.
  destruct (lookup_lt_is_Some_2 l k) as [x Hx]; [lia|].
  rewrite Hx. eauto.
Qed.

Lemma py_setitem_inv l i x l' :
  py_setitem l i x = Ok l' ->
  exists k, norm_index (len l) i = Ok k /\ l' = <[k := x]> l.
Proof.
  unfold py_setitem. intros H. rinv H. exists a. split; [done|]. by injection H.
Qed.

Lemma len_insert l k x : len (<[k := x]> l) = len l.
Proof. unfold len. by rewrite length_insert. Qed.
End Indexing.

Lemma set_cell_inv bars r i v bars' :
  set_cell bars r i v = Ok bars' ->
  exists kr ki row,
    norm_index (len bars) r = Ok kr /\ bars !! kr = Some row
    /\ norm_index (len row) i = Ok ki
    /\ bars' = <[kr := <[ki := v]> row]> bars.
Proof.
  unfold set_cell. intros H. rinv H. rinv H.
  apply py_index_inv in Ha as (kr & Hkr & Hrow).
  apply py_setitem_inv in Ha0 as (ki & Hki & ->).
  apply py_setitem_inv in H as (kr' & Hkr' & ->).
  rewrite Hkr in Hkr'. injection Hkr' as <-. eauto 10.
Qed.


Lemma set_cell_total h w bars r i v :
  shaped h w bars -> - h <= r < h -> - w <= i < w ->
  exists bars', set_cell bars r i v = Ok bars'.
Proof.
  intros [Hh Hw] Hr Hi. unfold set_cell.
  destruct (norm_index_total (len bars) r) as [kr Hkr]; [lia|].
  destruct (py_index_norm _ _ _ Hkr) as (row & -> & Hrow). simpl.
  assert (len row = w) as Hlen by (eapply Forall_lookup_1 in Hw; eauto).
  destruct (norm_index_total (len row) i) as [ki Hki]; [lia|].
  unfold py_setitem. rewrite Hki, Hkr. simpl. eauto.
Qed.

Lemma get_cell_total h w bars r i :
  shaped h w bars -> - h <= r < h -> - w <= i < w ->
  exists c, get_cell bars r i = Ok c.
Proof.
  intros [Hh Hw] Hr Hi. unfold get_cell.
  destruct (norm_index_total (len bars) r) as [kr Hkr]; [lia|].
  destruct (py_index_norm _ _ _ Hkr) as (row & -> & Hrow). simpl.
  assert (len row = w) as Hlen by (eapply Forall_lookup_1 in Hw; eauto).
  destruct (norm_index_total (len row) i) as [ki Hki]; [lia|].
  destruct (py_index_norm _ _ _ Hki) as (c & -> & _). eauto.
Qed.

Lemma set_cell_shaped h w bars r i v bars' :
  shaped h w bars -> set_cell bars r i v = Ok bars' -> shaped h w bars'.
Proof.
  intros [Hh Hw] (kr & ki & row & Hkr & Hrow & Hki & ->)%set_cell_inv.
  split; [by rewrite len_insert|].
  apply Forall_insert; [done|]. rewrite len_insert.
  eapply Forall_lookup_1 in Hw; eauto.
Qed.

Lemma get_set_cell bars r i v bars' :
  set_cell bars r i v = Ok bars' -> get_cell bars' r i = Ok v.
Proof.
  intros (kr & ki & row & Hkr & Hrow & Hki & ->)%set_cell_inv.
  unfold get_cell, py_index. rewrite len_insert, Hkr. simpl.
  rewrite list_lookup_insert_eq by (by eapply lookup_lt_Some).
  simpl. rewrite len_insert, Hki. simpl.
  apply norm_index_lt in Hki. unfold len in Hki.
  rewrite list_lookup_insert_eq by lia. done.
Qed.

Lemma get_set_cell_other_row bars r i v bars' r' i' :
  set_cell bars r i v = Ok bars' -> 0 <= r -> 0 <= r' -> r <> r' ->
  get_cell bars' r' i' = get_cell bars r' i'.
Proof.
  intros (kr & ki & row & Hkr & Hrow & Hki & ->)%set_cell_inv Hr Hr' Hne.
  unfold get_cell, py_index. rewrite len_insert.
  destruct (norm_index (len bars) r') as [kr'|] eqn:Hkr'; simpl; [|done].
  rewrite list_lookup_insert_ne; [done|].
  unfold norm_index in Hkr, Hkr'.
  destruct (r <? 0) eqn:?, (r' <? 0) eqn:?; try lia.
  repeat case_match; simplify_eq. lia.
Qed.


Lemma fill_column_total h w i whole pc js : forall bars,
  shaped h w bars -> - w <= i < w -> Forall (fun j => 0 <= j < h) js ->
  exists bars', fill_column bars h i whole pc js = Ok bars' /\ shaped h w bars'.
Proof.
  induction js as [|j js IH]; intros bars Hs Hi Hjs; simpl; [eauto|].
  apply Forall_cons in Hjs as [Hj Hjs].
  destruct (set_cell_total h w bars (h - j - 1) i (bar_cell whole pc j)) as [b1 Hb1];
    [done|lia|done|].
  rewrite Hb1. simpl. apply IH; [|done|done]. by eapply set_cell_shaped.
Qed.


Lemma seqZ_range h : Forall (fun j => 0 <= j < h) (seqZ 0 h).
Proof. apply Forall_forall. intros j Hj%elem_of_seqZ. lia. Qed.

Lemma block_partial p :
  0 <= p <= 7 -> exists g, py_index block p = Ok g /\ g <> full_block /\ g <> ESC.
Proof.
  intros Hp.
  assert (p = 0 \/ p = 1 \/ p = 2 \/ p = 3 \/ p = 4 \/ p = 5 \/ p = 6 \/ p = 7)
    as Hcases by lia.
  destruct Hcases as [->|[->|[->|[->|[->|[->|[->| ->]]]]]]];
    eexists; (split; [reflexivity|split; discriminate]).
Qed.

Lemma draw_column_total h w bars i val :
  shaped h w bars -> - w <= i < w ->
  exists bars', draw_column bars h i val = Ok bars' /\ shaped h w bars'.
Proof.
  intros Hs Hi. unfold draw_column.
  destruct (block_partial _ (part_height_range val)) as (g & -> & _). simpl.
  apply (fill_column_total h w); [done|done|apply seqZ_range].
Qed.

Lemma draw_series_total h w offset y : forall bars n,
  shaped h w bars ->
  (forall idx, n <= idx < n + len y -> - w <= offset - idx < w) ->
  exists bars', draw_series bars h offset n y = Ok bars' /\ shaped h w bars'.
Proof.
  induction y as [|val y IH]; intros bars n Hs Hidx; simpl; [eauto|].
  assert (Hlen : len (val :: y) = len y + 1) by (unfold len; simpl; lia).
  destruct (draw_column_total h w bars (offset - n) val Hs) as (b1 & -> & Hs1).
  { apply Hidx. unfold len in *. lia. }
  simpl. apply IH; [done|]. intros idx Hi. apply Hidx. lia.
Qed.

Lemma style_row_total h w bars offset j :
  shaped h w bars -> 0 <= j < h -> 2 <= w -> offset = w / 2 - 1 ->
  exists bars', style_row bars offset j = Ok bars' /\ shaped h w bars'.
Proof.
  intros Hs Hj Hw ->. unfold style_row.
  assert (Hdiv : 1 <= w / 2 /\ w / 2 < w).
  { split; [apply Z.div_le_lower_bound; lia|apply Z.div_lt; lia]. }
  destruct (get_cell_total h w bars j 0 Hs) as [c0 ->]; [lia..|]. cbn [rbind].
  destruct (set_cell_total h w bars j 0 (RED ++ c0) Hs) as [b1 Hb1]; [lia..|].
  rewrite Hb1. cbn [rbind]. pose proof (set_cell_shaped _ _ _ _ _ _ _ Hs Hb1) as Hs1.
  destruct (get_cell_total h w b1 j (w / 2 - 1 - 1) Hs1) as [c1 ->]; [lia..|]. cbn [rbind].
  destruct (set_cell_total h w b1 j (w / 2 - 1 - 1) (c1 ++ CC) Hs1) as [b2 Hb2]; [lia..|].
  rewrite Hb2. cbn [rbind]. pose proof (set_cell_shaped _ _ _ _ _ _ _ Hs1 Hb2) as Hs2.
  destruct (set_cell_total h w b2 j (w / 2 - 1) [space] Hs2) as [b3 Hb3]; [lia..|].
  rewrite Hb3. cbn [rbind]. pose proof (set_cell_shaped _ _ _ _ _ _ _ Hs2 Hb3) as Hs3.
  destruct (get_cell_total h w b3 j (w / 2 - 1 + 1) Hs3) as [c3 ->]; [lia..|]. cbn [rbind].
  destruct (set_cell_total h w b3 j (w / 2 - 1 + 1) (GREEN ++ c3) Hs3) as [b4 Hb4]; [lia..|].
  rewrite Hb4. cbn [rbind]. pose proof (set_cell_shaped _ _ _ _ _ _ _ Hs3 Hb4) as Hs4.
  pose proof Hs4 as [Hh4 Hw4].
  destruct (norm_index_total (len b4) 0) as [k0 Hk0]; [lia|].
  destruct (py_index_norm _ _ _ Hk0) as (row0 & -> & Hrow0). cbn [rbind].
  assert (len row0 = w) as -> by (eapply Forall_lookup_1 in Hw4; eauto).
  destruct (get_cell_total h w b4 j (w - 1)) as [c4 ->]; [done|lia..|]. cbn [rbind].
  destruct (set_cell_total h w b4 j (w - 1) (c4 ++ CC)) as [b5 Hb5]; [done|lia..|].
  rewrite Hb5. exists b5. split; [done|]. by eapply set_cell_shaped.
Qed.

Lemma style_rows_total h w offset js : forall bars,
  shaped h w bars -> Forall (fun j => 0 <= j < h) js -> 2 <= w ->
  offset = w / 2 - 1 ->
  exists bars', style_rows bars offset js = Ok bars' /\ shaped h w bars'.
Proof.
  induction js as [|j js IH]; intros bars Hs Hjs Hw Ho; simpl; [eauto|].
  apply Forall_cons in Hjs as [Hj Hjs].
  destruct (style_row_total h w bars offset j Hs Hj Hw Ho) as (b1 & -> & Hs1).
  simpl. by apply IH.
Qed.



(** ** Visual width *)

Lemma sub_plain s rest : plain s -> sub_from O (s ++ rest) = s ++ sub_from O rest.
Proof.
  induction 1 as [|c s Hc _ IH]; simpl; [done|].
  destruct (Z.eqb_spec c ESC); [done|]. by rewrite IH.
Qed.


Lemma sub_RED rest : sub_from O (RED ++ rest) = sub_from O rest.
Proof. reflexivity. Qed.

Lemma sub_GREEN rest : sub_from O (GREEN ++ rest) = sub_from O rest.
Proof. reflexivity. Qed.

Lemma sub_YELLOW rest : sub_from O (YELLOW ++ rest) = sub_from O rest.
Proof. reflexivity. Qed.

Lemma sub_CC rest : sub_from O (CC ++ rest) = sub_from O rest.
Proof. reflexivity. Qed.



Lemma len_app {A} (s t : list A) : len (s ++ t) = len s + len t.
Proof. unfold len. rewrite length_app. lia. Qed.






(** *** Cells *)
















(** *** Formatted numbers are plain *)







(** *** The fixed lines *)





(** ** The frame *)











(** *** The line of values *)



(** ** The loop makes progress *)

Lemma values_text_total {nic} d :
  has_tracked d -> exists text, values_text nic d = Ok text.
Proof.
  intros Hd. unfold values_text.
  destruct (Hd "port_rcv_data"%string) as [rd Hrd]; [set_solver|].
  destruct (Hd "port_rcv_packets"%string) as [rp Hrp]; [set_solver|].
  destruct (Hd "port_xmit_data"%string) as [xd Hxd]; [set_solver|].
  destruct (Hd "port_xmit_packets"%string) as [xp Hxp]; [set_solver|].
  rewrite (getitem_ok _ _ _ Hrd), (getitem_ok _ _ _ Hrp),
    (getitem_ok _ _ _ Hxd), (getitem_ok _ _ _ Hxp).
  cbn [rbind]. eauto.
Qed.

Lemma column_total (k : string) (queue : list (gmap string Q)) :
  k ∈ tracked -> Forall has_tracked queue ->
  exists y, for_each (fun x => getitem x k) queue = Ok y /\ len y = len queue.
Proof.
  intros Hk. induction 1 as [|x queue Hx _ (y & IH & Hlen)]; simpl; [by exists []|].
  destruct (Hx k Hk) as [v Hv]. rewrite (getitem_ok _ _ _ Hv), IH. simpl.
  exists (v :: y). split; [done|]. unfold len in *. simpl. lia.
Qed.

Lemma scale_total height y :
  y <> [] -> exists ys, scale height y = Ok ys /\ len ys = len y.
Proof.
  intros Hy. unfold scale, y_factor. destruct y as [|x y]; [done|].
  cbn [py_max rbind]. eexists. split; [done|].
  unfold len. by rewrite length_map, length_reverse.
Qed.

Lemma blank_bars_shaped cols height :
  2 <= cols -> shaped height (cols - 2) (blank_bars cols height).
Proof.
  intros Hc. split.
  - unfold len, blank_bars. rewrite length_replicate. lia.
  - apply Forall_replicate. unfold len. rewrite length_replicate. lia.
Qed.

Lemma len_nonempty {A} (l : list A) : l <> [] -> 1 <= len l.
Proof. destruct l; [done|]. unfold len. simpl. lia. Qed.

(** From four columns on, with a window that is not empty and within its
    capacity, the frame is rendered; it has [rows] lines on a terminal of
    at least five rows. *)
Lemma render_total cols rows nic d queue :
  4 <= cols -> queue <> [] -> len queue <= cols / 2 - 1 ->
  has_tracked d -> Forall has_tracked queue ->
  exists lines, render cols rows nic d queue = Ok lines
    /\ len lines = Z.max 5 rows.
Proof.
  intros Hcols Hne Hcap Hd Hq. unfold render.
  destruct (values_text_total (nic:=nic) d Hd) as [text ->]. cbn [rbind].
  destruct (column_total "port_xmit_data" queue) as (y & -> & Hy);
    [set_solver|done|]. cbn [rbind].
  destruct (column_total "port_rcv_data" queue) as (y2 & -> & Hy2);
    [set_solver|done|]. cbn [rbind].
  pose proof (len_nonempty _ Hne) as Hpos.
  set (height := rows - _ - 1).
  assert (Hheight : height = rows - 5) by (unfold height, len; simpl length; lia).
  destruct (scale_total height y) as (ys & -> & Hys).
  { intros ->. unfold len in *. simpl in Hy. lia. }
  destruct (scale_total height y2) as (ys2 & -> & Hys2).
  { intros ->. unfold len in *. simpl in Hy2. lia. }
  cbn [rbind].
  assert (Hhalf : (cols - 2) / 2 = cols / 2 - 1).
  { replace (cols - 2) with (cols + (-1) * 2) by lia. rewrite Z.div_add; lia. }
  assert (Hlow : 1 <= cols / 2 - 1).
  { rewrite <- Hhalf. apply Z.div_le_lower_bound; lia. }
  assert (Hhigh : 2 * (cols / 2 - 1) <= cols - 2).
  { rewrite <- Hhalf. apply Z.mul_div_le. lia. }
  destruct (draw_series_total height (cols - 2) (cols - 2 - 1) ys
              (blank_bars cols height) 0) as (b1 & -> & Hs1).
  { apply blank_bars_shaped. lia. }
  { intros idx Hidx. lia. }
  cbn [rbind].
  destruct (draw_series_total height (cols - 2) ((cols - 2) / 2 - 2) ys2 b1 0 Hs1)
    as (b2 & -> & Hs2).
  { intros idx Hidx. lia. }
  cbn [rbind].
  destruct (style_rows_total height (cols - 2) ((cols - 2) / 2 - 1)
              (seqZ 0 height) b2 Hs2 (seqZ_range height)) as (b3 & -> & Hs3);
    [lia|done|].
  cbn [rbind]. eexists. split; [done|].
  destruct Hs3 as [Hrows _].
  rewrite !len_app. unfold len in *.
  rewrite length_replicate, length_map. simpl length. lia.
Qed.

Lemma sample_total interval st tk :
  ~ (interval == 0)%Q -> Diff._fields st = tracked -> has_tracked (raw tk) ->
  exists st' d, sample interval st tk = Ok (st', d)
    /\ Diff._fields st' = tracked /\ has_tracked d.
Proof.
  intros Hnz Hf Htk. unfold sample.
  destruct (scale_vals interval (raw tk)) as [vals|e] eqn:Hvals.
  - cbn [rbind].
    assert (Hv : forall k, k ∈ Diff._fields st -> is_Some (vals !! k)).
    { intros k Hk. rewrite Hf in Hk. destruct (Htk k Hk) as [v Hv].
      rewrite (scale_vals_inv _ _ _ k Hvals), Hv. by eexists. }
    destruct (feed_total st vals Hv) as (st' & d & Hfeed).
    exists st', d. split; [done|]. split.
    + apply feed_inv in Hfeed as (_ & _ & ->). done.
    + intros k Hk. rewrite <- Hf in Hk.
      destruct (feed_lookup _ _ _ _ k Hfeed Hk) as (v & _ & -> & _). by eexists.
  - exfalso. unfold scale_vals in Hvals. case_decide; [done|].
    destruct (Qeq_bool interval 0) eqn:Hz; [|done].
    by apply Qeq_bool_iff in Hz.
Qed.


Lemma loop_body_total cols rows nic interval st tk :
  4 <= cols -> ~ (interval == 0)%Q -> loop_ok cols st -> has_tracked (raw tk) ->
  exists st' frame,
    loop_body cols rows nic interval st tk = Ok (st', frame)
    /\ loop_ok cols st' /\ len frame = Z.max 5 rows.
Proof.
  intros Hc Hnz (Hf & Hmax & Hlen & Hall) Htk. unfold loop_body.
  destruct (sample_total interval (diff st) tk Hnz Hf Htk) as (diff' & d & -> & Hf' & Hd).
  cbn [rbind].
  rewrite <- Hmax in Hlen.
  destruct (append_items (queue st) d Hlen) as [Hitems Hle].
  assert (Hall' : Forall has_tracked (deque.items (deque.append (queue st) d))).
  { rewrite Hitems. apply Forall_drop. apply Forall_app. split; [done|by constructor]. }
  assert (Hne : deque.items (deque.append (queue st) d) <> []).
  { rewrite Hitems. intros Hnil%(f_equal length). rewrite length_drop in Hnil.
    rewrite length_app in Hnil. simpl in Hnil.
    assert (1 <= deque.maxlen (queue st)).
    { rewrite Hmax. assert (2 <= cols / 2); [|lia]. apply Z.div_le_lower_bound; lia. }
    unfold len in Hlen. lia. }
  destruct (render_total cols rows nic d _ Hc Hne) as (lines & -> & Hlines);
    [by rewrite <- Hmax|done|done|].
  cbn [rbind]. do 2 eexists. split; [done|]. split; [|done].
  repeat split; simpl; [done|by rewrite append_maxlen|by rewrite <- Hmax|done].
Qed.

(** From four columns on, with a non-zero interval and snapshots that hold
    the tracked counters, the loop renders one frame per tick. *)
Lemma loop_total cols rows nic interval ticks : forall st,
  4 <= cols -> ~ (interval == 0)%Q -> loop_ok cols st ->
  Forall (fun tk => has_tracked (raw tk)) ticks ->
  exists st' frames,
    loop cols rows nic interval st ticks = Ok (st', frames)
    /\ length frames = length ticks
    /\ Forall (fun frame => len frame = Z.max 5 rows) frames.
Proof.
  induction ticks as [|tk ticks IH]; intros st Hc Hnz Hst Hticks; simpl.
  - exists st, []. by repeat split.
  - apply Forall_cons in Hticks as [Htk Hticks].
    destruct (loop_body_total cols rows nic interval st tk Hc Hnz Hst Htk)
      as (st1 & frame & -> & Hst1 & Hframe).
    cbn [rbind].
    destruct (IH st1 Hc Hnz Hst1 Hticks) as (st2 & frames & -> & Hn & Hall).
    cbn [rbind]. exists st2, (frame :: frames). split; [done|].
    split; [simpl; lia|by constructor].
Qed.




(** * Further properties of the code *)

(** ** Rate Computer: what [feed] reads, writes and reports *)

Lemma comprehension_ext f g fields :
  (forall k, k ∈ fields -> f k = g k) ->
  Diff.comprehension f fields = Diff.comprehension g fields.
Proof.
  induction fields as [|k rest IH]; intros H; simpl; [done|].
  rewrite (H k) by apply list_elem_of_here.
  rewrite IH; [done|]. intros k' Hk'. apply H. by right.
Qed.

Lemma comprehension_raise f present k rest e :
  (forall k', k' ∈ present -> is_ok (f k') = true) ->
  f k = Raise e ->
  Diff.comprehension f (present ++ k :: rest) = Raise e.
Proof.
  induction present as [|k0 present IH]; intros Hp Hk; simpl.
  - by rewrite Hk.
  - destruct (f k0) as [v|e0] eqn:Hf0.
    + cbn [rbind]. rewrite IH; [done| |done]. intros k' Hk'. apply Hp. by right.
    + specialize (Hp k0 (list_elem_of_here _ _)). rewrite Hf0 in Hp. done.
Qed.

(** X1.  [Diff.feed], lines 65-68: after a successful feed, a feed of a
    snapshot whose tracked fields hold equal values succeeds and reports
    zero for every tracked field. *)
Theorem feed_unchanged_is_zero (self self1 : Diff.t)
    (vals vals' d1 : gmap string Q)
    (Hfirst : Diff.feed self vals = Ok (self1, d1))
    (Hsame : forall k, k ∈ Diff._fields self ->
               option_Forall2 Qeq (vals !! k) (vals' !! k)) :
  exists self2 d2,
    Diff.feed self1 vals' = Ok (self2, d2)
    /\ forall k, k ∈ Diff._fields self ->
         exists r, d2 !! k = Some r /\ (r == 0)%Q.
Proof.
  pose proof (feed_inv _ _ _ _ Hfirst) as (_ & _ & Hf).
  assert (Hall : forall k, k ∈ Diff._fields self1 -> is_Some (vals' !! k)).
  { intros k Hk. rewrite Hf in Hk.
    destruct (feed_lookup _ _ _ _ k Hfirst Hk) as (v & Hv & _).
    specialize (Hsame k Hk). rewrite Hv in Hsame. inversion Hsame. by eexists. }
  destruct (feed_total self1 vals' Hall) as (self2 & d2 & Hfeed).
  exists self2, d2. split; [done|]. intros k Hk.
  destruct (feed_lookup _ _ _ _ k Hfirst Hk) as (v & Hv & _ & Hd1).
  rewrite <- Hf in Hk.
  destruct (feed_lookup _ _ _ _ k Hfeed Hk) as (v' & Hv' & Hd2 & _).
  rewrite Hf in Hk. specialize (Hsame k Hk). rewrite Hv, Hv' in Hsame.
  inversion Hsame as [? ? Heq|]; subst.
  rewrite Hd1 in Hd2. simpl in Hd2. eexists. split; [done|]. rewrite Heq. ring.
Qed.

Lemma feed_unchanged_is_zero_witness :
  exists self2 d2,
    Diff.feed (Diff.mk tracked (sample4 4000 2000 40 20)) (sample4 (8000 # 2) 2000 40 20)
    = Ok (self2, d2)
    /\ forall k, k ∈ tracked -> exists r, d2 !! k = Some r /\ (r == 0)%Q.
Proof.
  apply (feed_unchanged_is_zero (Diff.init tracked) _ (sample4 4000 2000 40 20)
           (sample4 (8000 # 2) 2000 40 20) (sample4 (0 # 1) (0 # 1) (0 # 1) (0 # 1))).
  - vm_compute. reflexivity.
  - intros k Hk. unfold tracked in Hk. simpl in Hk.
    repeat (apply elem_of_cons in Hk as [->|Hk];
            [vm_compute; constructor; reflexivity|]).
    by apply elem_of_nil in Hk.
Defined.

(** X2.  [Diff.feed], lines 65-68: when the snapshot holds every field
    before [k] in [_fields] but not [k], [feed] raises [KeyError k]. *)
Theorem feed_missing_field_raises (self : Diff.t) (vals : gmap string Q)
    (present rest : list string) (k : string)
    (Hfields : Diff._fields self = present ++ k :: rest)
    (Hpresent : forall k', k' ∈ present -> is_Some (vals !! k'))
    (Hmissing : vals !! k = None) :
  Diff.feed self vals = Raise (KeyError k).
Proof.
  unfold Diff.feed. rewrite Hfields.
  rewrite (comprehension_raise _ present k rest (KeyError k)); [done| |].
  - intros k' [v Hv]%Hpresent. unfold Diff.delta.
    by rewrite (getitem_ok _ _ _ Hv).
  - unfold Diff.delta, getitem. by rewrite Hmissing.
Qed.

Lemma feed_missing_field_raises_witness :
  Diff.feed (Diff.init tracked)
    (<["port_rcv_data"%string := 1%Q]> (<["port_xmit_data"%string := 2%Q]> ∅))
  = Raise (KeyError "port_rcv_packets").
Proof.
  apply (feed_missing_field_raises (Diff.init tracked) _
           ["port_rcv_data"; "port_xmit_data"]%string ["port_xmit_packets"%string]).
  - reflexivity.
  - intros k' Hk'.
    repeat (apply elem_of_cons in Hk' as [->|Hk']; [eexists; vm_compute; reflexivity|]).
    by apply elem_of_nil in Hk'.
  - vm_compute. reflexivity.
Defined.

(** X3.  [Diff.feed], lines 65-68: on success the keys of the returned diff,
    and the keys of the new [_d], are exactly the tracked fields. *)
Theorem feed_keys_are_fields (self self' : Diff.t) (vals diff : gmap string Q)
    (Hfeed : Diff.feed self vals = Ok (self', diff)) :
  (forall k, is_Some (diff !! k) <-> k ∈ Diff._fields self)
  /\ (forall k, is_Some (Diff._d self' !! k) <-> k ∈ Diff._fields self).
Proof.
  pose proof (feed_inv _ _ _ _ Hfeed) as (Hdiff & Hd & _).
  split; intros k.
  - rewrite (comprehension_lookup _ _ _ k Hdiff).
    destruct (decide (k ∈ Diff._fields self)) as [Hin|Hout].
    + destruct (feed_lookup _ _ _ _ k Hfeed Hin) as (v & Hv & _).
      unfold Diff.delta. rewrite (getitem_ok _ _ _ Hv). simpl.
      split; [done|by eexists].
    + split; [by intros [? ?]|done].
  - rewrite (comprehension_lookup _ _ _ k Hd).
    destruct (decide (k ∈ Diff._fields self)) as [Hin|Hout].
    + destruct (feed_lookup _ _ _ _ k Hfeed Hin) as (v & Hv & _).
      rewrite (getitem_ok _ _ _ Hv). split; [done|by eexists].
    + split; [by intros [? ?]|done].
Qed.

Lemma feed_keys_are_fields_witness :
  (forall k, is_Some (sample4 (0 # 1) (0 # 1) (0 # 1) (0 # 1) !! k) <-> k ∈ tracked)
  /\ (forall k, is_Some (sample4 4000 2000 40 20 !! k) <-> k ∈ tracked).
Proof.
  apply (feed_keys_are_fields (Diff.init tracked)
           (Diff.mk tracked (sample4 4000 2000 40 20))
           (<["unrelated"%string := 7%Q]> (sample4 4000 2000 40 20))).
  vm_compute. reflexivity.
Defined.

(** X4.  [Diff.feed], lines 65-68: two snapshots that agree on the tracked
    fields give the same result, be it a diff and a new state or an
    exception. *)
Theorem feed_reads_tracked_only (self : Diff.t) (vals vals' : gmap string Q)
    (Hagree : forall k, k ∈ Diff._fields self -> vals !! k = vals' !! k) :
  Diff.feed self vals = Diff.feed self vals'.
Proof.
  unfold Diff.feed.
  rewrite (comprehension_ext (Diff.delta (Diff._d self) vals)
             (Diff.delta (Diff._d self) vals') (Diff._fields self)).
  2:{ intros k Hk. unfold Diff.delta, getitem. by rewrite (Hagree k Hk). }
  rewrite (comprehension_ext (getitem vals) (getitem vals') (Diff._fields self)).
  2:{ intros k Hk. unfold getitem. by rewrite (Hagree k Hk). }
  done.
Qed.

Lemma feed_reads_tracked_only_witness :
  Diff.feed (Diff.init tracked) (sample4 4000 2000 40 20)
  = Diff.feed (Diff.init tracked)
      (<["unrelated"%string := 7%Q]> (sample4 4000 2000 40 20)).
Proof.
  apply (feed_reads_tracked_only (Diff.init tracked)).
  intros k Hk. unfold tracked in Hk. simpl in Hk.
  repeat (apply elem_of_cons in Hk as [->|Hk]; [vm_compute; reflexivity|]).
  by apply elem_of_nil in Hk.
Defined.




(** ** Sampling, the periodic producer and the window below capacity *)

Lemma scale_vals_zero_interval interval vals :
  (interval == 0)%Q -> vals <> ∅ -> scale_vals interval vals = Raise ZeroDivisionError.
Proof.
  intros Hz Hne. unfold scale_vals. case_decide as Hempty.
  - exfalso. apply Hne. apply map_eq. intros k. rewrite lookup_empty.
    assert (map_imap (fun k v => Some (unit_scale k v)) vals !! k = None) as Hk
      by (rewrite Hempty; apply lookup_empty).
    rewrite map_lookup_imap in Hk. by destruct (vals !! k).
  - by rewrite (proj2 (Qeq_bool_iff interval 0) Hz).
Qed.

(** X6.  [main], lines 117-119: with an interval equal to zero a non-empty
    snapshot raises [ZeroDivisionError] in the scaling comprehension. *)
Theorem zero_interval_raises (interval : Q) (st : Diff.t) (tk : tick)
    (Hzero : (interval == 0)%Q) (Hnonempty : raw tk <> ∅) :
  sample interval st tk = Raise ZeroDivisionError.
Proof.
  unfold sample. by rewrite (scale_vals_zero_interval _ _ Hzero Hnonempty).
Qed.

Lemma zero_interval_raises_witness :
  sample 0 (Diff.init tracked) (mkTick 0 (snapshot4 1 2 3 4))
  = Raise ZeroDivisionError.
Proof.
  apply (zero_interval_raises 0 (Diff.init tracked) (mkTick 0 (snapshot4 1 2 3 4))).
  - reflexivity.
  - intros H. apply (f_equal (fun m => m !! "port_rcv_data"%string)) in H.
    vm_compute in H. discriminate.
Defined.



(** X8.  [CounterReader.periodic], lines 26-34: the generator ends at the
    first iteration in which the time between [start] and [end] exceeds
    [seconds]: one warning on stderr, then the [ValueError] of [time.sleep];
    later snapshots are never produced. *)
Theorem periodic_ends_at_first_late_tick (seconds late : Q)
    (on_time rest : list Q) (w : world)
    (Hfast : Forall (fun b => b <= seconds)%Q on_time)
    (Hlate : (seconds < late)%Q) :
  exists w',
    periodic_run seconds (on_time ++ late :: rest) w
    = (S (length on_time), w', Some (ValueError "sleep length must be non-negative"))
    /\ stderr w' = stderr w ++ ["Warning: time_to_sleep negative"%string].
Proof.
  revert w. induction on_time as [|b on_time IH]; intros w.
  - cbn [app periodic_run].
    rewrite periodic_resume_late by (simpl; lra).
    eexists. split; [done|]. done.
  - apply Forall_cons in Hfast as [Hb Hfast].
    cbn [app periodic_run].
    rewrite periodic_resume_on_time by (simpl; lra).
    cbn [now stderr]. set (w2 := mkWorld _ _).
    destruct (IH Hfast w2) as (w' & -> & Herr).
    exists w'. split; [done|]. done.
Qed.

Lemma periodic_ends_at_first_late_tick_witness :
  exists w',
    periodic_run 1 ([1 # 2; 1] ++ 3 :: [0])%Q (mkWorld 0 [])
    = (3%nat, w', Some (ValueError "sleep length must be non-negative"))
    /\ stderr w' = [] ++ ["Warning: time_to_sleep negative"%string].
Proof.
  apply (periodic_ends_at_first_late_tick 1 3 [1 # 2; 1]%Q [0]%Q (mkWorld 0 [])).
  - repeat constructor; vm_compute; discriminate.
  - reflexivity.
Defined.

(** X9.  [main], lines 98 and 138: a window that has received at most
    [cols//2-1] samples holds all of them, in arrival order. *)
Theorem window_below_capacity_keeps_all {A} (cols : Z) (q : deque.t A)
    (xs : list A)
    (Hq : history_window cols = Ok q)
    (Hlen : len xs <= cols / 2 - 1) :
  deque.items (deque.extend q xs) = xs.
Proof.
  unfold history_window, deque.new in Hq.
  destruct (Z.ltb_spec (cols / 2 - 1) 0); [done|]. apply Ok_inj in Hq as <-.
  assert (Hinv : len (deque.items (deque.mk (A:=A) (cols / 2 - 1) [])) <= cols / 2 - 1)
    by (unfold len; simpl; lia).
  destruct (extend_items xs _ Hinv) as [Hit _]. simpl in Hit.
  rewrite Hit. unfold len in Hlen.
  replace (length xs - Z.to_nat (cols / 2 - 1))%nat with 0%nat by lia. done.
Qed.

Lemma window_below_capacity_keeps_all_witness :
  exists q : deque.t Z,
    history_window 10 = Ok q /\ deque.items (deque.extend q [7; 8; 9]) = [7; 8; 9].
Proof.
  eexists. split; [reflexivity|].
  apply (window_below_capacity_keeps_all 10 _ [7; 8; 9]); [reflexivity|].
  vm_compute. discriminate.
Defined.

(** ** Counter discovery and reading *)












Lemma read_items_keys fs items : forall acc m,
  CounterReader.read_items fs items acc = Returns m ->
  forall k, is_Some (m !! k) <-> is_Some (acc !! k) \/ k ∈ items.*1.
Proof.
  induction items as [|[k0 p] items IH]; intros acc m H k; simpl in H.
  - injection H as <-. split; [by left|]. intros [?|Hin]; [done|].
    by apply elem_of_nil in Hin.
  - destruct (CounterReader._read fs p) as [n| |]; [|done|done].
    rewrite (IH _ _ H k). rewrite fmap_cons. simpl.
    destruct (decide (k = k0)) as [->|Hne].
    + rewrite lookup_insert_eq. split; intros _; [right; by left|left; by eexists].
    + rewrite lookup_insert_ne by done. rewrite elem_of_cons.
      split; [intros [?|?]; [by left|right; by right]
             |intros [?|[?|?]]; [by left|done|by right]].
Qed.

(** X12.  [CounterReader._read_all], lines 36-41: a snapshot that is
    returned has exactly the counter names as keys. *)
Theorem read_all_keys_are_counters (self : CounterReader.t) (fs : filesystem)
    (m : gmap string Z)
    (Hread : CounterReader._read_all self fs = Returns m) :
  dom m = list_to_set (CounterReader._counters self).*1.
Proof.
  apply set_eq. intros k. rewrite elem_of_dom, elem_of_list_to_set.
  rewrite (read_items_keys _ _ _ _ Hread k). rewrite lookup_empty.
  split; [intros [[? ?]|?]; done|by right].
Qed.

Lemma read_all_keys_are_counters_witness :
  dom ({[ "c"%string := 17 ]} : gmap string Z)
  = list_to_set [("c", "/r/c")]%string.*1.
Proof.
  apply (read_all_keys_are_counters (CounterReader.mk [("c", "/r/c")]%string)
           (one_counter ("17" +:+ newline))).
  vm_compute. reflexivity.
Defined.





(** ** The width of formatted numbers *)

(** *** The width of formatted numbers *)

Lemma decimal_width n :
  0 <= n < 10000 ->
  1 <= len (decimal n) <= 4 /\ (n < 100 -> len (decimal n) <= 2).
Proof.
  intros Hn.
  assert (H : forallb (fun m => (1 <=? len (decimal m)) && (len (decimal m) <=? 4)
                                && ((100 <=? m) || (len (decimal m) <=? 2)))
                      (seqZ 0 10000) = true) by (vm_compute; reflexivity).
  rewrite forallb_forall in H. specialize (H n).
  rewrite <- list_elem_of_In, elem_of_seqZ in H.
  specialize (H ltac:(lia)).
  apply andb_prop in H as [H H3]. apply andb_prop in H as [H1 H2].
  apply Z.leb_le in H1, H2. split; [lia|]. intros Hlt.
  apply orb_prop in H3 as [H3|H3]; [apply Z.leb_le in H3; lia|by apply Z.leb_le].
Qed.

Lemma round_half_even_bounds q :
  Qfloor q <= round_half_even q <= Qfloor q + 1.
Proof.
  unfold round_half_even.
  destruct (_ ?= _)%Q; [destruct (Z.even _)| |]; lia.
Qed.

Lemma Qfloor_lt_Z q z : (q < inject_Z z)%Q -> Qfloor q < z.
Proof.
  intros H. rewrite Zlt_Qlt. pose proof (Qfloor_le q). lra.
Qed.

Lemma fixed2_width num :
  (Qabs num < 1024)%Q ->
  len (fixed 2 num) <= 7 + (if Qlt_le_dec num 0 then 1 else 0).
Proof.
  intros Hnum. unfold fixed.
  change (10 ^ Z.of_nat 2) with 100.
  set (n := round_half_even (Qabs num * inject_Z 100)).
  assert (Hn : 0 <= n <= 102400).
  { pose proof (round_half_even_bounds (Qabs num * inject_Z 100)) as [Hlo Hhi].
    fold n in Hlo, Hhi.
    assert (0 <= Qfloor (Qabs num * inject_Z 100)).
    { change 0 with (Qfloor 0). apply Qfloor_resp_le.
      pose proof (Qabs_nonneg num). change (inject_Z 100) with (100%Q). lra. }
    assert (Qfloor (Qabs num * inject_Z 100) < 102400).
    { apply Qfloor_lt_Z. change (inject_Z 100) with (100%Q).
      change (inject_Z 102400) with (102400%Q). lra. }
    lia. }
  destruct (decimal_width (n / 100)) as [[_ Hw] _].
  { split; [apply Z.div_pos; lia|]. apply Z.div_lt_upper_bound; lia. }
  destruct (decimal_width (n mod 100)) as [[Hf1 _] Hf2].
  { pose proof (Z.mod_pos_bound n 100). lia. }
  specialize (Hf2 ltac:(pose proof (Z.mod_pos_bound n 100); lia)).
  rewrite !len_app. unfold len in *. rewrite length_replicate.
  destruct (Qlt_le_dec num 0); simpl length; lia.
Qed.

Lemma Qabs_div_pos num (b : Z) :
  0 < b -> (Qabs (num / inject_Z b) == Qabs num / inject_Z b)%Q.
Proof.
  intros Hb. unfold Qdiv. rewrite Qabs_Qmult, Qabs_Qinv.
  rewrite (Qabs_pos (inject_Z b)); [reflexivity|].
  change 0%Q with (inject_Z 0). rewrite <- Zle_Qle. lia.
Qed.

(** Within the range of its units the loop returns from inside: the number
    printed is below the base in magnitude and keeps the sign. *)
Lemma fmt_loop_in_range (b : Z) p tail_ rest : forall u num,
  0 < b ->
  (Qabs num < inject_Z (b ^ Z.of_nat (S (length rest))))%Q ->
  exists x u',
    fmt_loop (inject_Z b) p tail_ (u :: rest) num
    = inl (fixed p x ++ ustr_of u' ++ tail_)
    /\ (Qabs x < inject_Z b)%Q /\ u' ∈ u :: rest
    /\ ((0 <= num)%Q -> (0 <= x)%Q).
Proof.
  induction rest as [|u2 rest IH]; intros u num Hb Hnum.
  - simpl in *. rewrite Z.pow_1_r in Hnum.
    destruct (Qlt_le_dec (Qabs num) (inject_Z b)); [|lra].
    exists num, u. repeat split; [done|by left|done].
  - cbn [fmt_loop].
    destruct (Qlt_le_dec (Qabs num) (inject_Z b)) as [Hlt|Hge].
    + exists num, u. repeat split; [done|by left|done].
    + destruct (IH u2 (num / inject_Z b)%Q Hb) as (x & u' & Heq & Hx & Hu & Hsign).
      * rewrite Qabs_div_pos by done.
        assert (Hbq : (0 < inject_Z b)%Q).
        { change 0%Q with (inject_Z 0). rewrite <- Zlt_Qlt. lia. }
        apply Qlt_shift_div_r; [done|].
        rewrite <- inject_Z_mult.
        replace (b ^ Z.of_nat (S (length rest)) * b)
          with (b ^ Z.of_nat (S (length (u2 :: rest)))); [done|].
        cbn [length]. rewrite (Nat2Z.inj_succ (S _)), Z.pow_succ_r by lia. lia.
      * exists x, u'. repeat split; [done|done|by right|].
        intros Hpos. apply Hsign.
        assert (Hbq : (0 < inject_Z b)%Q).
        { change 0%Q with (inject_Z 0). rewrite <- Zlt_Qlt. lia. }
        apply Qle_shift_div_l; [done|]. lra.
Qed.

Lemma sign_nonneg num : (0 <= num)%Q -> (if Qlt_le_dec num 0 then 1 else 0) = 0.
Proof. intros H. destruct (Qlt_le_dec num 0); [lra|done]. Qed.

Lemma sizeof_fmt_len num :
  (Qabs num < inject_Z (1024 ^ 8))%Q ->
  exists x, len (sizeof_fmt num) <= 10 + (if Qlt_le_dec x 0 then 1 else 0)
    /\ ((0 <= num)%Q -> (0 <= x)%Q).
Proof.
  intros Hnum. unfold sizeof_fmt.
  change (1024%Q) with (inject_Z 1024).
  destruct (fmt_loop_in_range 1024 2 (ustr_of "B")
              ["Ki"; "Mi"; "Gi"; "Ti"; "Pi"; "Ei"; "Zi"]%string "" num)
    as (x & u & -> & Hx & Hu & Hsign); [lia|done|].
  exists x. split; [|done].
  pose proof (fixed2_width x Hx) as Hw.
  assert (len (ustr_of u) <= 2).
  { repeat (apply elem_of_cons in Hu as [->|Hu]; [vm_compute; discriminate|]).
    by apply elem_of_nil in Hu. }
  rewrite !len_app. change (len (ustr_of "B")) with 1. lia.
Qed.


(** X14.  [sizeof_fmt], lines 44-49: below [1024**8] in magnitude the text
    has at most 11 characters, and at most 10 for a number that is not
    negative. *)
Theorem sizeof_fmt_width (num : Q)
    (Hrange : (Qabs num < inject_Z (1024 ^ 8))%Q) :
  len (sizeof_fmt num) <= 11
  /\ ((0 <= num)%Q -> len (sizeof_fmt num) <= 10).
Proof.
  destruct (sizeof_fmt_len num Hrange) as (x & Hlen & Hsign). split.
  - destruct (Qlt_le_dec x 0); lia.
  - intros Hpos. rewrite (sign_nonneg x) in Hlen by auto. lia.
Qed.

Lemma sizeof_fmt_width_witness :
  len (sizeof_fmt 1048570) <= 11
  /\ ((0 <= 1048570)%Q -> len (sizeof_fmt 1048570) <= 10).
Proof.
  apply (sizeof_fmt_width 1048570). vm_compute. reflexivity.
Defined.





(** ** Bar Scaler: bounds *)






(** ** What the drawing loops leave in the grid *)

Lemma fill_column_shaped h w i whole pc js : forall bars bars',
  shaped h w bars -> fill_column bars h i whole pc js = Ok bars' ->
  shaped h w bars'.
Proof.
  induction js as [|j js IH]; intros bars bars' Hs Hfill; simpl in Hfill.
  - by apply Ok_inj in Hfill as <-.
  - apply rbind_ok in Hfill as (b1 & Hb1 & Hfill).
    eapply IH; [|done]. by eapply set_cell_shaped.
Qed.

Lemma draw_column_shaped h w bars i val bars' :
  shaped h w bars -> draw_column bars h i val = Ok bars' -> shaped h w bars'.
Proof.
  intros Hs Hd. unfold draw_column in Hd.
  apply rbind_ok in Hd as (g & _ & Hd). by eapply fill_column_shaped.
Qed.

Lemma draw_series_shaped h w offset y : forall bars n bars',
  shaped h w bars -> draw_series bars h offset n y = Ok bars' -> shaped h w bars'.
Proof.
  induction y as [|val y IH]; intros bars n bars' Hs Hd; simpl in Hd.
  - by apply Ok_inj in Hd as <-.
  - apply rbind_ok in Hd as (b1 & Hb1 & Hd).
    eapply IH; [|done]. by eapply draw_column_shaped.
Qed.

(** A cell is addressed through the position its index denotes. *)
Lemma get_cell_norm h w bars r i i' :
  shaped h w bars -> norm_index w i' = norm_index w i ->
  get_cell bars r i' = get_cell bars r i.
Proof.
  intros [_ Hw] Hn. unfold get_cell.
  destruct (py_index bars r) as [row|e] eqn:Hrow; [|done]. cbn [rbind].
  apply py_index_inv in Hrow as (k & _ & Hk).
  rewrite Forall_forall in Hw.
  assert (Hlen : len row = w).
  { apply Hw. by eapply list_elem_of_lookup_2. }
  unfold py_index. by rewrite Hlen, Hn.
Qed.

Lemma get_set_cell_other_col h w bars r i v bars' r' i' :
  shaped h w bars -> set_cell bars r i v = Ok bars' ->
  norm_index w i' <> norm_index w i ->
  get_cell bars' r' i' = get_cell bars r' i'.
Proof.
  intros [_ Hw] (kr & ki & row & Hkr & Hrow & Hki & ->)%set_cell_inv Hne.
  rewrite Forall_forall in Hw.
  assert (Hlen : len row = w).
  { apply Hw. by eapply list_elem_of_lookup_2. }
  unfold get_cell, py_index. rewrite len_insert.
  destruct (norm_index (len bars) r') as [kr'|] eqn:Hkr'; simpl; [|done].
  destruct (decide (kr' = kr)) as [->|Hk].
  - rewrite list_lookup_insert_eq by (by eapply lookup_lt_Some).
    rewrite Hrow. simpl. rewrite len_insert, Hlen.
    destruct (norm_index w i') as [ki'|] eqn:Hki'; simpl; [|done].
    rewrite list_lookup_insert_ne; [done|].
    intros ->. apply Hne. by rewrite <- Hlen, Hki.
  - by rewrite list_lookup_insert_ne.
Qed.

(** What the inner loop leaves in the grid: in column [i] the rows it
    visits hold the glyph of their height above the bottom; everything else
    is as before. *)
Lemma fill_column_cells h w i whole pc js : forall bars bars',
  shaped h w bars -> Forall (fun j => 0 <= j < h) js ->
  fill_column bars h i whole pc js = Ok bars' ->
  (forall r, 0 <= r < h ->
     (h - r - 1 ∈ js -> get_cell bars' r i = Ok (bar_cell whole pc (h - r - 1)))
     /\ (h - r - 1 ∉ js -> get_cell bars' r i = get_cell bars r i))
  /\ (forall r i', norm_index w i' <> norm_index w i ->
        get_cell bars' r i' = get_cell bars r i').
Proof.
  induction js as [|j js IH]; intros bars bars' Hs Hjs Hfill; simpl in Hfill.
  - apply Ok_inj in Hfill as <-. split; [|done].
    intros r Hr. split; [|done]. intros Hin. by apply elem_of_nil in Hin.
  - apply Forall_cons in Hjs as [Hj Hjs].
    apply rbind_ok in Hfill as (b1 & Hb1 & Hfill).
    assert (Hs1 : shaped h w b1) by (by eapply set_cell_shaped).
    destruct (IH b1 bars' Hs1 Hjs Hfill) as [Hcol Hother]. split.
    + intros r Hr. destruct (Hcol r Hr) as [Hin Hout].
      destruct (decide (h - r - 1 ∈ js)) as [Hjs'|Hjs'].
      * split; [by intros _; apply Hin|]. intros Hn. exfalso. apply Hn. by right.
      * rewrite (Hout Hjs'). split.
        -- intros [Heq|?]%elem_of_cons; [|done].
           rewrite Heq. replace r with (h - j - 1) by lia.
           by eapply get_set_cell.
        -- intros Hn. eapply get_set_cell_other_row; [done|lia|lia|].
           intros Heq. apply Hn. apply elem_of_cons. left. lia.
    + intros r i' Hne. rewrite (Hother r i' Hne).
      by eapply get_set_cell_other_col.
Qed.

Lemma draw_column_cells_at h w bars i val bars' :
  shaped h w bars -> draw_column bars h i val = Ok bars' ->
  exists g,
    py_index block (part_height val) = Ok g
    /\ (forall r i', 0 <= r < h -> norm_index w i' = norm_index w i ->
          get_cell bars' r i' = Ok (bar_cell (whole_height val) g (h - r - 1)))
    /\ (forall r i', norm_index w i' <> norm_index w i ->
          get_cell bars' r i' = get_cell bars r i').
Proof.
  intros Hs Hd. pose proof (draw_column_shaped _ _ _ _ _ _ Hs Hd) as Hs'.
  unfold draw_column in Hd.
  apply rbind_ok in Hd as (g & Hg & Hfill). exists g. split; [done|].
  destruct (fill_column_cells _ _ _ _ _ _ _ _ Hs (seqZ_range h) Hfill)
    as [Hcol Hother].
  split; [|done]. intros r i' Hr Hn.
  rewrite (get_cell_norm h w bars' r i i' Hs' Hn).
  apply (Hcol r Hr). apply elem_of_seqZ. lia.
Qed.

(** X19.  [main], lines 159-172 and 175-188: after the body of a bar loop
    for column [i], row [r] of that column holds the glyph of the row
    [height-r-1] counted from the bottom, and the cells of every column at
    another position are unchanged. *)
Theorem draw_column_cells (h w : Z) (bars bars' : grid) (i : Z) (val : Q)
    (Hshape : shaped h w bars)
    (Hdraw : draw_column bars h i val = Ok bars') :
  exists g,
    py_index block (part_height val) = Ok g
    /\ (forall r, 0 <= r < h ->
          get_cell bars' r i = Ok (bar_cell (whole_height val) g (h - r - 1)))
    /\ (forall r i', norm_index w i' <> norm_index w i ->
          get_cell bars' r i' = get_cell bars r i').
Proof.
  destruct (draw_column_cells_at h w bars i val bars' Hshape Hdraw)
    as (g & Hg & Hcol & Hother).
  exists g. split; [done|]. split; [|done].
  intros r Hr. by apply Hcol.
Qed.

Lemma draw_column_cells_witness :
  exists g,
    py_index block (part_height (5 # 2)) = Ok g
    /\ (forall r, 0 <= r < 4 ->
          get_cell
            [[[space]; [space]]; [[space]; [0x2584]]; [[space]; [full_block]];
             [[space]; [full_block]]] r (-1)
          = Ok (bar_cell (whole_height (5 # 2)) g (4 - r - 1)))
    /\ (forall r i', norm_index 2 i' <> norm_index 2 (-1) ->
          get_cell
            [[[space]; [space]]; [[space]; [0x2584]]; [[space]; [full_block]];
             [[space]; [full_block]]] r i'
          = get_cell (blank_bars 4 4) r i').
Proof.
  apply (draw_column_cells 4 2 (blank_bars 4 4)).
  - split; [reflexivity|]. repeat constructor.
  - vm_compute. reflexivity.
Defined.




Lemma draw_series_app h offset y1 y2 : forall bars n,
  draw_series bars h offset n (y1 ++ y2)
  = let* b := draw_series bars h offset n y1 in
    draw_series b h offset (n + len y1) y2.
Proof.
  induction y1 as [|val y1 IH]; intros bars n; cbn [app draw_series].
  - cbn [rbind]. f_equal. unfold len. simpl. lia.
  - destruct (draw_column bars h (offset - n) val) as [b1|e]; cbn [rbind]; [|done].
    rewrite IH.
    destruct (draw_series b1 h offset (n + 1) y1) as [b2|e]; cbn [rbind]; [|done].
    f_equal. unfold len. simpl length. lia.
Qed.

(** X21.  [main], lines 98, 138-141 and 158-188: with a full window of
    [cols//2-1] samples the receive loop reaches the index [-1], so that
    after both loops the rightmost column, where the newest transmit sample
    was drawn, holds the bar of the oldest receive sample. *)
Theorem full_window_overwrites_newest_tx (cols h : Z) (bars b1 b2 : grid)
    (y newer : list Q) (oldest : Q)
    (Hcols : 4 <= cols)
    (Hshape : shaped h (cols - 2) bars)
    (Hfull : len (newer ++ [oldest]) = cols / 2 - 1)
    (Htx : draw_series bars h (cols - 2 - 1) 0 y = Ok b1)
    (Hrx : draw_series b1 h ((cols - 2) / 2 - 2) 0 (newer ++ [oldest]) = Ok b2) :
  exists g,
    py_index block (part_height oldest) = Ok g
    /\ forall r, 0 <= r < h ->
         get_cell b2 r (cols - 2 - 1 - 0)
         = Ok (bar_cell (whole_height oldest) g (h - r - 1)).
Proof.
  pose proof (draw_series_shaped _ _ _ _ _ _ _ Hshape Htx) as Hs1.
  rewrite draw_series_app in Hrx.
  apply rbind_ok in Hrx as (b' & Hb' & Hlast).
  pose proof (draw_series_shaped _ _ _ _ _ _ _ Hs1 Hb') as Hs'.
  cbn [draw_series] in Hlast.
  apply rbind_ok in Hlast as (b2' & Hcol & Hlast). apply Ok_inj in Hlast as ->.
  destruct (draw_column_cells_at _ _ _ _ _ _ Hs' Hcol) as (g & Hg & Hcells & _).
  exists g. split; [done|]. intros r Hr. apply Hcells; [done|].
  assert (Hidx : (cols - 2) / 2 - 2 - (0 + len newer) = -1).
  { rewrite len_app in Hfull. change (len [oldest]) with 1 in Hfull.
    pose proof (Z.div_mod cols 2 ltac:(lia)).
    pose proof (Z.mod_pos_bound cols 2 ltac:(lia)).
    pose proof (Z.div_mod (cols - 2) 2 ltac:(lia)).
    pose proof (Z.mod_pos_bound (cols - 2) 2 ltac:(lia)).
    lia. }
  rewrite Hidx. unfold norm_index.
  destruct (Z.ltb_spec (cols - 2 - 1 - 0) 0); [lia|].
  change (-1 <? 0) with true. cbn match.
  replace (-1 + (cols - 2)) with (cols - 2 - 1 - 0) by lia. done.
Qed.

Lemma full_window_overwrites_newest_tx_witness :
  exists b1 b2 g,
    draw_series (blank_bars 6 2) 2 (6 - 2 - 1) 0 [2; 1]%Q = Ok b1
    /\ draw_series b1 2 ((6 - 2) / 2 - 2) 0 ([0] ++ [1 # 2])%Q = Ok b2
    /\ py_index block (part_height (1 # 2)) = Ok g
    /\ forall r, 0 <= r < 2 ->
         get_cell b2 r (6 - 2 - 1 - 0)
         = Ok (bar_cell (whole_height (1 # 2)) g (2 - r - 1)).
Proof.
  eexists _, _, _.
  split; [vm_compute; reflexivity|].
  split; [vm_compute; reflexivity|].
  split; [vm_compute; reflexivity|].
  match goal with
  | |- forall r, _ -> get_cell ?b2 _ _ = _ =>
      let b1 := eval vm_compute in
        (match draw_series (blank_bars 6 2) 2 3 0 [2; 1]%Q with
         | Ok b => b
         | Raise _ => []
         end) in
      destruct (full_window_overwrites_newest_tx 6 2 (blank_bars 6 2) b1 b2
                  [2; 1]%Q [0]%Q (1 # 2)) as (g & Hg & Hcells)
  end.
  - lia.
  - split; [reflexivity|]. repeat constructor.
  - reflexivity.
  - vm_compute. reflexivity.
  - vm_compute. reflexivity.
  - vm_compute in Hg. apply Ok_inj in Hg as <-. exact Hcells.
Defined.

(** ** The loop and the width of the terminal *)



(** X23.  [main], lines 98 and 116-146: below four columns the monitor
    raises [ValueError]: from [deque] at start-up below two columns, and
    otherwise from [max] of the empty window in the first iteration. *)
Theorem narrow_terminal_raises (cols rows : Z) (nic : ustr) (interval : Q)
    (tk : tick)
    (Hcols : cols < 4) (Hinterval : ~ (interval == 0)%Q)
    (Htk : has_tracked (raw tk)) :
  match loop_init cols with
  | Raise e => cols < 2 /\ e = ValueError "maxlen must be non-negative"
  | Ok st =>
      2 <= cols
      /\ loop_body cols rows nic interval st tk
         = Raise (ValueError "max() arg is an empty sequence")
  end.
Proof.
  unfold loop_init, history_window, deque.new.
  destruct (Z.ltb_spec (cols / 2 - 1) 0) as [Hneg|Hpos]; cbn [rbind].
  - split; [|done].
    assert (cols / 2 < 1) by lia.
    destruct (Z.lt_ge_cases cols 2) as [|Hge]; [done|].
    assert (1 <= cols / 2) by (apply Z.div_le_lower_bound; lia). lia.
  - assert (Hc2 : 2 <= cols).
    { destruct (Z.lt_ge_cases cols 2) as [Hlt|]; [|done].
      assert (cols / 2 < 1) by (apply Z.div_lt_upper_bound; lia). lia. }
    split; [done|].
    assert (Hcap : cols / 2 - 1 = 0).
    { assert (cols / 2 < 2) by (apply Z.div_lt_upper_bound; lia). lia. }
    rewrite Hcap. unfold loop_body. cbn [diff queue].
    destruct (sample_total interval (Diff.init tracked) tk Hinterval eq_refl Htk)
      as (diff' & d & -> & _ & Hd).
    cbn [rbind]. unfold deque.append. cbn [deque.items deque.maxlen app length tail].
    change (0 <? Z.of_nat 1) with true. cbn [deque.items].
    unfold render.
    destruct (values_text_total (nic:=nic) d Hd) as [text ->].
    reflexivity.
Qed.

Lemma narrow_terminal_raises_witness :
  match loop_init 3 with
  | Raise e => 3 < 2 /\ e = ValueError "maxlen must be non-negative"
  | Ok st =>
      2 <= 3
      /\ loop_body 3 24 (ustr_of "mlx5_0") 1 st (mkTick 0 (snapshot4 10 20 1 2))
         = Raise (ValueError "max() arg is an empty sequence")
  end.
Proof.
  apply (narrow_terminal_raises 3 24 (ustr_of "mlx5_0") 1 (mkTick 0 (snapshot4 10 20 1 2))).
  - lia.
  - discriminate.
  - intros k Hk; unfold tracked in Hk;
      repeat (apply elem_of_cons in Hk as [->|Hk]; [eexists; vm_compute; reflexivity|]);
      by apply elem_of_nil in Hk.
Defined.

(** ** Colour sequences *)

(** X24.  [main], lines 100-108: removing the escape sequences from plain
    text wrapped in [RED], [GREEN] or [YELLOW] and [CC] gives the text back,
    and [slen] is its length. *)
Theorem colour_is_invisible (c s : ustr)
    (Hcolour : c ∈ [RED; GREEN; YELLOW])
    (Hplain : plain s) :
  ansi_sub (c ++ s ++ CC) = s /\ slen (c ++ s ++ CC) = len s.
Proof.
  assert (Hsub : ansi_sub (c ++ s ++ CC) = s).
  { unfold ansi_sub.
    assert (Hc : sub_from O (c ++ s ++ CC) = sub_from O (s ++ CC)).
    { repeat (apply elem_of_cons in Hcolour as [->|Hcolour]);
        [apply sub_RED|apply sub_GREEN|apply sub_YELLOW|by apply elem_of_nil in Hcolour]. }
    rewrite Hc, (sub_plain s CC Hplain).
    rewrite <- (app_nil_r CC), sub_CC. simpl. by rewrite app_nil_r. }
  split; [done|]. unfold slen. by rewrite Hsub.
Qed.

Lemma colour_is_invisible_witness :
  ansi_sub (RED ++ ustr_of "RX bps" ++ CC) = ustr_of "RX bps"
  /\ slen (RED ++ ustr_of "RX bps" ++ CC) = len (ustr_of "RX bps").
Proof.
  apply (colour_is_invisible RED (ustr_of "RX bps")).
  - by left.
  - repeat constructor; discriminate.
Defined.
